(** * fuzzhash-simhashdedup: the near-duplicate file finder of [main.py]

    A shallow embedding of [calculate_hashes] and [find_similar_files],
    and the properties of the digest table and of the greedy clustering
    pass that its specification states. *)

From Stdlib Require Import ZArith.
From stdpp Require Import base gmap sets list strings.

Set Warnings "-clear-no-such-hyp".

Local Open Scope string_scope.
Local Open Scope Z_scope.
Local Open Scope list_scope.

(** ** Python values and exceptions *)

(** The exceptions the handlers of [main.py] tell apart.
    [FileNotFoundError] and [PermissionError] are subclasses of [OSError];
    [OSError] stands for the remaining ones, [OtherException] for any
    [Exception] outside that family. *)
Inductive exn : Type :=
  | FileNotFoundError
  | PermissionError
  | OSError
  | OtherException.

Inductive result (A : Type) : Type :=
  | Ok (a : A)
  | Raise (e : exn).
Arguments Ok {A} a.
Arguments Raise {A} e.

Definition is_OSError (e : exn) : bool :=
  match e with
  | FileNotFoundError | PermissionError | OSError => true
  | OtherException => false
  end.

(** A hash as [calculate_hashes] hands it back: a [str], or [None]. *)
Definition hashval : Type := option string.

(** Python truthiness of such a value: [None] and the empty [str] are falsy. *)
Definition truthy (v : hashval) : bool :=
  match v with
  | Some s => negb (String.eqb s "")
  | None => false
  end.

(** What one call of [ssdeep.compare] does: it returns a score, raises
    [ssdeep.error], or raises some other [Exception]. *)
Inductive cmp_result : Type :=
  | Similarity (similarity : Z)
  | SsdeepError
  | CompareException.

(** ** Dictionaries in insertion order *)

(** [file_hashes]: path |-> (ssdeep hash, xxhash), iterated by [.items()]
    in insertion order. *)
Definition DigestTable : Type := list (string * (hashval * hashval)).

(** [d[k] = v]: a key already present keeps its position. *)
Fixpoint dict_set {V : Type} (k : string) (v : V) (d : list (string * V))
  : list (string * V) :=
  match d with
  | [] => [(k, v)]
  | (k', v') :: d' =>
      if decide (k' = k) then (k, v) :: d' else (k', v') :: dict_set k v d'
  end.

Definition keys {V : Type} (d : list (string * V)) : list string := d.*1.

(** ** The environment of a scan *)

(** The calls into [os], [os.path] and [open] that [main.py] makes, as
    functions of their argument: the file system does not change while
    one scan runs. [walk] gives the [(root, files)] of the triples that
    [os.walk] yields, and the exception that ends the iteration early,
    if any. *)
Record filesystem : Type := {
  isdir : string → bool;
  walk : string → list (string * list string) * option exn;
  join : string → string → string;
  getsize : string → result Z;
  read : string → result (list Byte.byte);
}.

(** [ssdeep.hash] and [xxhash.xxh64(...).hexdigest()]. *)
Record hashers : Type := {
  ssdeep_hash : list Byte.byte → result string;
  xxh64_hexdigest : list Byte.byte → result string;
}.

(** What a run does besides returning: the calls [open(filepath, "rb")]
    and the calls to [logging]. *)
Inductive event : Type :=
  | Open (filepath : string)
  | LogSkipSmall (filepath : string)
  | LogFileNotFound (filepath : string)
  | LogPermission (filepath : string)
  | LogHashError (filepath : string) (e : exn)
  | LogInvalidDirectory (directory : string)
  | LogOSError (e : exn)
  | LogUnexpected (e : exn).

(** Computations that return or raise, and leave a trace of events. *)
Definition M (A : Type) : Type := result A * list event.

Definition ret {A : Type} (a : A) : M A := (Ok a, []).

Definition bind {A B : Type} (m : M A) (k : A → M B) : M B :=
  match m with
  | (Ok a, tr) => let '(r, tr') := k a in (r, tr ++ tr')
  | (Raise e, tr) => (Raise e, tr)
  end.

Definition emit (ev : event) : M unit := (Ok tt, [ev]).

Definition lift {A : Type} (r : result A) : M A := (r, []).

(** [try: m  except Exception as e: h e] *)
Definition try_except {A : Type} (m : M A) (h : exn → M A) : M A :=
  match m with
  | (Ok a, tr) => (Ok a, tr)
  | (Raise e, tr) => let '(r, tr') := h e in (r, tr ++ tr')
  end.

Notation "x <- m ;; k" := (bind m (λ x, k))
  (at level 100, m at next level, right associativity).
Notation "m ;;; k" := (bind m (λ _, k))
  (at level 100, right associativity).

(** ** [calculate_hashes] (lines 27-54) *)

Definition calculate_hashes (fs : filesystem) (hs : hashers) (filepath : string)
  : M (hashval * hashval) :=
  try_except
    (emit (Open filepath);;;
     file_content <- lift (read fs filepath);;
     ssdeep_hash <- lift (ssdeep_hash hs file_content);;
     xxhash_hash <- lift (xxh64_hexdigest hs file_content);;
     ret (Some ssdeep_hash, Some xxhash_hash))
    (λ e,
       match e with
       | FileNotFoundError => emit (LogFileNotFound filepath);;; ret (None, None)
       | PermissionError => emit (LogPermission filepath);;; ret (None, None)
       | OSError | OtherException =>
           emit (LogHashError filepath e);;; ret (None, None)
       end).

(** ** Building the digest table (lines 77-87) *)

(** The body of the loop over [files]. *)
Definition scan_file (fs : filesystem) (hs : hashers) (min_size : Z)
    (root filename : string) (file_hashes : DigestTable) : M DigestTable :=
  let filepath := join fs root filename in
  size <- lift (getsize fs filepath);;
  if size <? min_size then
    emit (LogSkipSmall filepath);;; ret file_hashes
  else
    hashes <- calculate_hashes fs hs filepath;;
    let '(ssdeep_hash, xxhash_hash) := hashes in
    if truthy ssdeep_hash && truthy xxhash_hash
    then ret (dict_set filepath (ssdeep_hash, xxhash_hash) file_hashes)
    else ret file_hashes.

Fixpoint scan_files (fs : filesystem) (hs : hashers) (min_size : Z)
    (root : string) (files : list string) (file_hashes : DigestTable)
  : M DigestTable :=
  match files with
  | [] => ret file_hashes
  | filename :: rest =>
      file_hashes' <- scan_file fs hs min_size root filename file_hashes;;
      scan_files fs hs min_size root rest file_hashes'
  end.

Fixpoint scan_walk (fs : filesystem) (hs : hashers) (min_size : Z)
    (triples : list (string * list string)) (file_hashes : DigestTable)
  : M DigestTable :=
  match triples with
  | [] => ret file_hashes
  | (root, files) :: rest =>
      file_hashes' <- scan_files fs hs min_size root files file_hashes;;
      scan_walk fs hs min_size rest file_hashes'
  end.

(** The whole [for root, _, files in os.walk(directory)] loop, started on
    the empty [file_hashes]. *)
Definition scan (fs : filesystem) (hs : hashers) (min_size : Z)
    (directory : string) : M DigestTable :=
  file_hashes <- scan_walk fs hs min_size (walk fs directory).1 [];;
  match (walk fs directory).2 with
  | Some e => lift (Raise e)
  | None => ret file_hashes
  end.

(** ** The clustering pass (lines 96-113) *)

(** A loop that an exception can leave: the body returns the new state
    and whether it raised; the state is kept as it was at the raise. *)
Fixpoint for_each {St A : Type} (body : St → A → St * bool) (st : St)
    (items : list A) : St * bool :=
  match items with
  | [] => (st, false)
  | a :: rest =>
      let '(st', raised) := body st a in
      if raised then (st', true) else for_each body st' rest
  end.

(** The [try] statement around [ssdeep.compare]. A score at or above the
    threshold appends [filepath2] and marks it in [clusters]. When the
    call raises, Python evaluates the first clause, [except ssdeep.error];
    the module [ssdeep] has no attribute [error] (it has [BaseError] and
    [InternalError]), so the clause itself raises [AttributeError]. The
    clause [except Exception] is then not tried and nothing in the
    generator catches the error: [true] says that it leaves the
    generator. State: the registry [clusters] and the list [cluster]
    under construction. *)
Definition on_compare (threshold : Z) (st : gset string * list string)
    (filepath2 : string) (r : cmp_result)
  : gset string * list string * bool :=
  let '(clusters, cluster) := st in
  match r with
  | Similarity similarity =>
      if similarity >=? threshold
      then ((clusters ∪ {[filepath2]}, cluster ++ [filepath2]), false)
      else (st, false)
  | SsdeepError => (st, true)
  | CompareException => (st, true)
  end.

Definition inner_body (compare : hashval → hashval → cmp_result)
    (threshold : Z) (filepath1 : string) (ssdeep_hash1 : hashval)
    (st : gset string * list string)
    (item : string * (hashval * hashval))
  : gset string * list string * bool :=
  let '(filepath2, (ssdeep_hash2, _)) := item in
  if bool_decide (filepath1 ≠ filepath2) && bool_decide (filepath2 ∉ st.1)
  then on_compare threshold st filepath2 (compare ssdeep_hash1 ssdeep_hash2)
  else (st, false).

Definition inner_loop (compare : hashval → hashval → cmp_result)
    (threshold : Z) (file_hashes : DigestTable) (filepath1 : string)
    (ssdeep_hash1 : hashval) (clusters : gset string)
  : gset string * list string * bool :=
  for_each (inner_body compare threshold filepath1 ssdeep_hash1)
           (clusters, [filepath1]) file_hashes.

(** State of the outer loop: the registry and the pairs yielded so far. *)
Definition outer_body (compare : hashval → hashval → cmp_result)
    (threshold : Z) (file_hashes : DigestTable)
    (st : gset string * list (string * list string))
    (item : string * (hashval * hashval))
  : gset string * list (string * list string) * bool :=
  let '(clusters, yielded) := st in
  let '(filepath1, (ssdeep_hash1, _)) := item in
  if bool_decide (filepath1 ∈ clusters) then (st, false)
  else
    let '((clusters', cluster), raised) :=
      inner_loop compare threshold file_hashes filepath1 ssdeep_hash1 clusters in
    if raised then ((clusters', yielded), true)
    else if (1 <? length cluster)%nat
    then ((clusters', yielded ++ [(filepath1, cluster)]), false)
    else ((clusters', yielded), false).

Definition cluster_run (compare : hashval → hashval → cmp_result)
    (threshold : Z) (file_hashes : DigestTable)
    (items : list (string * (hashval * hashval)))
    (st : gset string * list (string * list string))
  : gset string * list (string * list string) * bool :=
  for_each (outer_body compare threshold file_hashes) st items.

(** Everything the generator yields once the table is built, until it
    is exhausted or left by an error. *)
Definition cluster_pass (compare : hashval → hashval → cmp_result)
    (threshold : Z) (file_hashes : DigestTable)
  : list (string * list string) :=
  (cluster_run compare threshold file_hashes file_hashes (∅, [])).1.2.

(** Whether the generator ends with an error rather than exhausted. *)
Definition cluster_pass_raises (compare : hashval → hashval → cmp_result)
    (threshold : Z) (file_hashes : DigestTable) : bool :=
  (cluster_run compare threshold file_hashes file_hashes (∅, [])).2.

(** ** [find_similar_files] (lines 57-113) *)

(** The pairs the generator yields until it is exhausted, and the trace
    of the scan. Both handlers of the traversal end the generator. *)
Definition find_similar_files (fs : filesystem) (hs : hashers)
    (compare : hashval → hashval → cmp_result)
    (directory : string) (threshold min_size : Z)
  : list (string * list string) * list event :=
  if negb (isdir fs directory) then ([], [LogInvalidDirectory directory])
  else
    match scan fs hs min_size directory with
    | (Ok file_hashes, tr) => (cluster_pass compare threshold file_hashes, tr)
    | (Raise e, tr) =>
        ([], tr ++ [if is_OSError e then LogOSError e else LogUnexpected e])
    end.

(** Whether an error leaves the generator; [main] sees it. *)
Definition find_similar_files_raises (fs : filesystem) (hs : hashers)
    (compare : hashval → hashval → cmp_result)
    (directory : string) (threshold min_size : Z) : bool :=
  if negb (isdir fs directory) then false
  else
    match (scan fs hs min_size directory).1 with
    | Ok file_hashes => cluster_pass_raises compare threshold file_hashes
    | Raise _ => false
    end.

(** ** The pass as the specification words it *)

(** Section 4.2 of the specification: a comparison that fails is logged,
    the pair is treated as below the threshold, and the scan goes on.
    The definitions of this part follow those words; they are the code
    of lines 96-113 with the two handlers of lines 108-111 entered as
    written. They serve to state how far the code agrees with them. *)

(** A score at or above the threshold appends [filepath2] and marks it
    in [clusters]; a failure changes nothing. *)
Definition on_compare_spec (threshold : Z) (st : gset string * list string)
    (filepath2 : string) (r : cmp_result) : gset string * list string :=
  let '(clusters, cluster) := st in
  match r with
  | Similarity similarity =>
      if similarity >=? threshold
      then (clusters ∪ {[filepath2]}, cluster ++ [filepath2])
      else st
  | SsdeepError => st
  | CompareException => st
  end.

Definition inner_body_spec (compare : hashval → hashval → cmp_result)
    (threshold : Z) (filepath1 : string) (ssdeep_hash1 : hashval)
    (st : gset string * list string)
    (item : string * (hashval * hashval)) : gset string * list string :=
  let '(filepath2, (ssdeep_hash2, _)) := item in
  if bool_decide (filepath1 ≠ filepath2) && bool_decide (filepath2 ∉ st.1)
  then on_compare_spec threshold st filepath2 (compare ssdeep_hash1 ssdeep_hash2)
  else st.

Definition inner_loop_spec (compare : hashval → hashval → cmp_result)
    (threshold : Z) (file_hashes : DigestTable) (filepath1 : string)
    (ssdeep_hash1 : hashval) (clusters : gset string)
  : gset string * list string :=
  foldl (inner_body_spec compare threshold filepath1 ssdeep_hash1)
        (clusters, [filepath1]) file_hashes.

Definition outer_body_spec (compare : hashval → hashval → cmp_result)
    (threshold : Z) (file_hashes : DigestTable)
    (st : gset string * list (string * list string))
    (item : string * (hashval * hashval))
  : gset string * list (string * list string) :=
  let '(clusters, yielded) := st in
  let '(filepath1, (ssdeep_hash1, _)) := item in
  if bool_decide (filepath1 ∈ clusters) then st
  else
    let '(clusters', cluster) :=
      inner_loop_spec compare threshold file_hashes filepath1 ssdeep_hash1 clusters in
    if (1 <? length cluster)%nat
    then (clusters', yielded ++ [(filepath1, cluster)])
    else (clusters', yielded).

Definition cluster_run_spec (compare : hashval → hashval → cmp_result)
    (threshold : Z) (file_hashes : DigestTable)
    (items : list (string * (hashval * hashval)))
    (st : gset string * list (string * list string))
  : gset string * list (string * list string) :=
  foldl (outer_body_spec compare threshold file_hashes) st items.

Definition cluster_pass_spec (compare : hashval → hashval → cmp_result)
    (threshold : Z) (file_hashes : DigestTable)
  : list (string * list string) :=
  (cluster_run_spec compare threshold file_hashes file_hashes (∅, [])).2.

(** ** Notions used to state what a scan does *)

(** The pair [calculate_hashes] returns, without its trace. *)
Definition hashes_of (fs : filesystem) (hs : hashers) (filepath : string)
  : hashval * hashval :=
  match read fs filepath with
  | Ok file_content =>
      match ssdeep_hash hs file_content, xxh64_hexdigest hs file_content with
      | Ok ssdeep_hash, Ok xxhash_hash => (Some ssdeep_hash, Some xxhash_hash)
      | _, _ => (None, None)
      end
  | Raise _ => (None, None)
  end.

Definition raises {A : Type} (r : result A) : Prop := ∃ e, r = Raise e.

(** Reading the file, or hashing what was read, raises. *)
Definition hashing_fails (fs : filesystem) (hs : hashers) (filepath : string)
  : Prop :=
  raises (read fs filepath)
  ∨ ∃ file_content, read fs filepath = Ok file_content
      ∧ (raises (ssdeep_hash hs file_content)
         ∨ raises (xxh64_hexdigest hs file_content)).

(** Reading, size-checking or hashing the file raises. *)
Definition file_fails (fs : filesystem) (hs : hashers) (filepath : string)
  : Prop :=
  raises (getsize fs filepath) ∨ hashing_fails fs hs filepath.

(** The same file system, with [filepath] absent from what [os.walk] lists. *)
Definition without_file (fs : filesystem) (filepath : string) : filesystem :=
  {| isdir := isdir fs;
     walk := λ directory,
       ((λ triple : string * list string,
           (triple.1,
            filter (λ filename, join fs triple.1 filename ≠ filepath) triple.2))
          <$> (walk fs directory).1,
        (walk fs directory).2);
     join := join fs;
     getsize := getsize fs;
     read := read fs |}.

(** What holds of every entry of a table that a scan has built. *)
Definition entry_ok (fs : filesystem) (hs : hashers) (min_size : Z)
    (entry : string * (hashval * hashval)) : Prop :=
  entry.2 = hashes_of fs hs entry.1
  ∧ truthy entry.2.1 = true ∧ truthy entry.2.2 = true
  ∧ ∃ size, getsize fs entry.1 = Ok size ∧ min_size ≤ size.

(** What every iteration of a scan keeps true of the table. *)
Definition table_ok (fs : filesystem) (hs : hashers) (min_size : Z)
    (tbl : DigestTable) : Prop :=
  Forall (entry_ok fs hs min_size) tbl ∧ NoDup (keys tbl).

(** The size check lets the file through. *)
Definition big_enough (fs : filesystem) (min_size : Z) (p : string) : Prop :=
  ∃ size, getsize fs p = Ok size ∧ min_size ≤ size.

(** ** The clustering pass over a comparison that is a relation *)

(** [compare_call a b r]: a call [ssdeep.compare(a, b)] may end in [r].
    Nothing here says that two calls on the same digests end alike. A
    loop ends when its items are exhausted or when its body raises. *)
Inductive loop {St A : Type} (body : St → A → St * bool → Prop)
  : St → list A → St * bool → Prop :=
  | loop_nil s : loop body s [] (s, false)
  | loop_cons s a s' l r :
      body s a (s', false) → loop body s' l r → loop body s (a :: l) r
  | loop_raise s a s' l :
      body s a (s', true) → loop body s (a :: l) (s', true).

Inductive inner_step (compare_call : hashval → hashval → cmp_result → Prop)
    (threshold : Z) (filepath1 : string) (ssdeep_hash1 : hashval)
  : gset string * list string → string * (hashval * hashval)
    → gset string * list string * bool → Prop :=
  | inner_step_call st filepath2 ssdeep_hash2 x r :
      filepath1 ≠ filepath2 → filepath2 ∉ st.1 →
      compare_call ssdeep_hash1 ssdeep_hash2 r →
      inner_step compare_call threshold filepath1 ssdeep_hash1
        st (filepath2, (ssdeep_hash2, x)) (on_compare threshold st filepath2 r)
  | inner_step_skip st filepath2 ssdeep_hash2 x :
      ¬ (filepath1 ≠ filepath2 ∧ filepath2 ∉ st.1) →
      inner_step compare_call threshold filepath1 ssdeep_hash1
        st (filepath2, (ssdeep_hash2, x)) (st, false).

Inductive outer_step (compare_call : hashval → hashval → cmp_result → Prop)
    (threshold : Z) (file_hashes : DigestTable)
  : gset string * list (string * list string) → string * (hashval * hashval)
    → gset string * list (string * list string) * bool → Prop :=
  | outer_step_claimed clusters yielded filepath1 ssdeep_hash1 x :
      filepath1 ∈ clusters →
      outer_step compare_call threshold file_hashes
        (clusters, yielded) (filepath1, (ssdeep_hash1, x))
        ((clusters, yielded), false)
  | outer_step_cluster clusters yielded filepath1 ssdeep_hash1 x clusters' cluster :
      filepath1 ∉ clusters →
      loop (inner_step compare_call threshold filepath1 ssdeep_hash1)
        (clusters, [filepath1]) file_hashes ((clusters', cluster), false) →
      outer_step compare_call threshold file_hashes
        (clusters, yielded) (filepath1, (ssdeep_hash1, x))
        ((clusters',
          if (1 <? length cluster)%nat
          then yielded ++ [(filepath1, cluster)] else yielded), false)
  | outer_step_raise clusters yielded filepath1 ssdeep_hash1 x clusters' cluster :
      filepath1 ∉ clusters →
      loop (inner_step compare_call threshold filepath1 ssdeep_hash1)
        (clusters, [filepath1]) file_hashes ((clusters', cluster), true) →
      outer_step compare_call threshold file_hashes
        (clusters, yielded) (filepath1, (ssdeep_hash1, x))
        ((clusters', yielded), true).

(** A run of the pass, to its end, yields [yielded]. *)
Definition cluster_pass_runs
    (compare_call : hashval → hashval → cmp_result → Prop)
    (threshold : Z) (file_hashes : DigestTable)
    (yielded : list (string * list string)) : Prop :=
  ∃ clusters raised,
    loop (outer_step compare_call threshold file_hashes)
      (∅, []) file_hashes ((clusters, yielded), raised).

(** The relation of a comparison that is a function. *)
Definition graph (compare : hashval → hashval → cmp_result)
  : hashval → hashval → cmp_result → Prop :=
  λ a b r, compare a b = r.

(** ** Closed forms of the two loops of the specification's pass *)

(** The comparison of a pair returned a score that meets the threshold. *)
Definition similar (compare : hashval → hashval → cmp_result) (threshold : Z)
    (h1 h2 : hashval) : bool :=
  match compare h1 h2 with
  | Similarity similarity => similarity >=? threshold
  | SsdeepError | CompareException => false
  end.

(** The paths one run of the specification's inner loop appends to
    [cluster]; the inner loop of the code appends the same when it is
    not left. *)
Fixpoint gathered (compare : hashval → hashval → cmp_result) (threshold : Z)
    (filepath1 : string) (ssdeep_hash1 : hashval)
    (clusters : gset string) (items : DigestTable) : list string :=
  match items with
  | [] => []
  | (filepath2, (ssdeep_hash2, _)) :: rest =>
      if bool_decide (filepath1 ≠ filepath2)
         && bool_decide (filepath2 ∉ clusters)
         && similar compare threshold ssdeep_hash1 ssdeep_hash2
      then filepath2
             :: gathered compare threshold filepath1 ssdeep_hash1
                  (clusters ∪ {[filepath2]}) rest
      else gathered compare threshold filepath1 ssdeep_hash1 clusters rest
  end.

(** The pairs the specification's outer loop yields over [items], from
    registry [clusters]. *)
Fixpoint emitted (compare : hashval → hashval → cmp_result) (threshold : Z)
    (tbl : DigestTable) (clusters : gset string) (items : DigestTable)
  : list (string * list string) :=
  match items with
  | [] => []
  | (filepath1, (ssdeep_hash1, _)) :: rest =>
      if bool_decide (filepath1 ∈ clusters)
      then emitted compare threshold tbl clusters rest
      else
        let ms := gathered compare threshold filepath1 ssdeep_hash1 clusters tbl in
        match ms with
        | [] => emitted compare threshold tbl (clusters ∪ list_to_set ms) rest
        | _ :: _ =>
            (filepath1, filepath1 :: ms)
              :: emitted compare threshold tbl (clusters ∪ list_to_set ms) rest
        end
  end.

(** A yielded list is its representative followed by gathered paths. *)
Definition cluster_shape (tbl : DigestTable) (rc : string * list string)
  : Prop :=
  ∃ ms, rc.2 = rc.1 :: ms ∧ ms ≠ [] ∧ (rc.1 ∉ ms) ∧ NoDup ms
        ∧ ms `sublist_of` keys tbl.

(** Every entry of [pre] that the registry has not claimed has been
    compared, as a representative, against the whole table: whatever
    met the threshold is claimed. *)
Definition compared_all (compare : hashval → hashval → cmp_result)
    (threshold : Z) (tbl pre : DigestTable) (clusters : gset string) : Prop :=
  ∀ p h x, (p, (h, x)) ∈ pre → p ∉ clusters →
    ∀ p2 h2 x2, (p2, (h2, x2)) ∈ tbl → p2 ≠ p →
      p2 ∈ clusters ∨ similar compare threshold h h2 = false.

(** All the paths of the yielded lists, in order. *)
Definition all_paths (yielded : list (string * list string)) : list string :=
  mjoin (yielded.*2).

(** Two paths stand in one yielded list. *)
Definition clustered_together (yielded : list (string * list string))
    (p q : string) : Prop :=
  ∃ rc, rc ∈ yielded ∧ p ∈ rc.2 ∧ q ∈ rc.2.

(** [compare], with every failure replaced by a score below [threshold]. *)
Definition failures_as_below (compare : hashval → hashval → cmp_result)
    (threshold : Z) (a b : hashval) : cmp_result :=
  match compare a b with
  | Similarity similarity => Similarity similarity
  | SsdeepError | CompareException => Similarity (threshold - 1)
  end.

Definition is_failure (r : cmp_result) : Prop :=
  r = SsdeepError ∨ r = CompareException.

(** ** Sample inputs *)

Definition cmpA (a b : hashval) : cmp_result :=
  match a, b with
  | Some x, Some y => if String.eqb x y then Similarity 100 else Similarity 10
  | _, _ => CompareException
  end.

Definition tblA : DigestTable :=
  [("a", (Some "h1", Some "x1")); ("b", (Some "h1", Some "x2"));
   ("c", (Some "h2", Some "x3"))].

Definition tblB : DigestTable :=
  [("a", (Some "h1", Some "x1")); ("b", (Some "h1", Some "x2"));
   ("c", (Some "h2", Some "x3")); ("d", (Some "h2", Some "x4"))].

(** Scores by pairs of digests; a digest against itself scores 100 and
    pairs not listed score 0. *)
Definition score_table (scores : list (string * string * Z)) (a b : hashval)
  : cmp_result :=
  match a, b with
  | Some x, Some y =>
      if String.eqb x y then Similarity 100
      else
        match list_find (λ e, bool_decide (e.1 = (x, y) ∨ e.1 = (y, x))) scores with
        | Some (_, (_, s)) => Similarity s
        | None => Similarity 0
        end
  | _, _ => CompareException
  end.

(** A ~ B at 50, B ~ C at 80, A ~ C at 10. *)
Definition cmpC : hashval → hashval → cmp_result :=
  score_table [("hA", "hB", 50); ("hB", "hC", 80); ("hA", "hC", 10)].

Definition tblC : DigestTable :=
  [("A", (Some "hA", Some "xA")); ("B", (Some "hB", Some "xB"));
   ("C", (Some "hC", Some "xC"))].

(** A comparison that is not symmetric: 10 one way, 90 the other. *)
Definition cmpD (a b : hashval) : cmp_result :=
  match a, b with
  | Some "hA", Some "hB" => Similarity 10
  | Some "hB", Some "hA" => Similarity 90
  | _, _ => Similarity 0
  end.

Definition tblD : DigestTable :=
  [("A", (Some "hA", Some "xA")); ("B", (Some "hB", Some "xB"))].

(** A comparison that raises [ssdeep.error] on the digest ["bad"]. *)
Definition cmpF (a b : hashval) : cmp_result :=
  match a, b with
  | Some x, Some y =>
      if String.eqb x "bad" || String.eqb y "bad" then SsdeepError
      else if String.eqb x y then Similarity 100 else Similarity 10
  | _, _ => CompareException
  end.

Definition tblF : DigestTable :=
  [("a", (Some "h1", Some "x1")); ("b", (Some "bad", Some "x2"));
   ("c", (Some "h1", Some "x3"))].

(** A call that may end in either of two scores. *)
Definition cmp_either (a b : hashval) (r : cmp_result) : Prop :=
  r = Similarity 100 ∨ r = Similarity 0.

(** A directory ["d"] that holds [files]: ["gone"] has vanished when its
    size is asked for, ["tiny"] has 10 bytes, ["locked"] cannot be read,
    every other file has 2048 bytes; all contents hash alike. *)
Definition sample_fs (files : list string) : filesystem :=
  {| isdir := λ directory, String.eqb directory "d";
     walk := λ _, ([("d", files)], None);
     join := λ root filename, String.append root (String.append "/" filename);
     getsize := λ filepath,
       if String.eqb filepath "d/gone" then Raise FileNotFoundError
       else if String.eqb filepath "d/tiny" then Ok 10
       else Ok 2048;
     read := λ filepath,
       if String.eqb filepath "d/locked" then Raise PermissionError
       else Ok [] |}.

Definition sample_hs : hashers :=
  {| ssdeep_hash := λ _, Ok "h1"; xxh64_hexdigest := λ _, Ok "ef46db3751d8e999" |}.

(** ** The comparisons a pass makes *)

(** The inner loop, with the calls [ssdeep.compare(ssdeep_hash1,
    ssdeep_hash2)] it makes recorded as pairs of paths, in order. *)
Definition inner_body_calls (compare : hashval → hashval → cmp_result)
    (threshold : Z) (filepath1 : string) (ssdeep_hash1 : hashval)
    (st : gset string * list string * list (string * string))
    (item : string * (hashval * hashval))
  : gset string * list string * list (string * string) * bool :=
  let '(filepath2, (ssdeep_hash2, _)) := item in
  if bool_decide (filepath1 ≠ filepath2) && bool_decide (filepath2 ∉ st.1.1)
  then
    let '(st', raised) :=
      on_compare threshold st.1 filepath2 (compare ssdeep_hash1 ssdeep_hash2) in
    ((st', st.2 ++ [(filepath1, filepath2)]), raised)
  else (st, false).

Definition outer_body_calls (compare : hashval → hashval → cmp_result)
    (threshold : Z) (file_hashes : DigestTable)
    (st : gset string * list (string * list string) * list (string * string))
    (item : string * (hashval * hashval))
  : gset string * list (string * list string) * list (string * string) * bool :=
  let '(clusters, yielded, calls) := st in
  let '(filepath1, (ssdeep_hash1, _)) := item in
  if bool_decide (filepath1 ∈ clusters) then (st, false)
  else
    let '((clusters', cluster, calls'), raised) :=
      for_each (inner_body_calls compare threshold filepath1 ssdeep_hash1)
               (clusters, [filepath1], calls) file_hashes in
    if raised then ((clusters', yielded, calls'), true)
    else if (1 <? length cluster)%nat
    then ((clusters', yielded ++ [(filepath1, cluster)], calls'), false)
    else ((clusters', yielded, calls'), false).

(** The result of the pass as [cluster_run] gives it, and the calls. *)
Definition cluster_pass_calls (compare : hashval → hashval → cmp_result)
    (threshold : Z) (file_hashes : DigestTable)
  : gset string * list (string * list string) * bool
    * list (string * string) :=
  let '((st, calls), raised) :=
    for_each (outer_body_calls compare threshold file_hashes)
             (∅, [], []) file_hashes in
  ((st, raised), calls).

(** ** [main] (lines 116-138) *)

(** The parsed command line, as [main] reads it from [args]. *)
Record arguments : Type := {
  arg_directory : string;
  arg_threshold : Z;
  arg_log_level : string;
  arg_min_size : Z;
}.

(** What [main] does, in order: its own [logging] calls, the events of
    [find_similar_files], and the lines it prints. *)
Inductive main_event : Type :=
  | LogStarting (directory : string)
  | Scanned (ev : event)
  | Print (line : string)
  | LogCritical
  | LogComplete.

(** The body of the [for representative, cluster in ...] loop. *)
Definition print_cluster (rc : string * list string) : list string :=
  [String.append "Cluster representative: " rc.1]
  ++ (String.append "  - " <$> rc.2)
  ++ ["--------------------"].

(** [args] is what [setup_argparse] returned. [setLevel] selects the
    records that are shown, not the calls that are made, so
    [arg_log_level] changes nothing here. The generator runs the scan
    when [main] asks for the first pair, and yields only after the table
    is complete. When an error leaves the generator, the handler of
    line 134 logs it and calls [exit(1)]; otherwise [main] logs the
    completion and returns. The second component is the exit status. *)
Definition main (fs : filesystem) (hs : hashers)
    (compare : hashval → hashval → cmp_result) (args : arguments)
  : list main_event * Z :=
  let '(yielded, tr) :=
    find_similar_files fs hs compare
      (arg_directory args) (arg_threshold args) (arg_min_size args) in
  let before :=
    [LogStarting (arg_directory args)]
    ++ (Scanned <$> tr)
    ++ (Print <$> mjoin (print_cluster <$> yielded)) in
  if find_similar_files_raises fs hs compare
       (arg_directory args) (arg_threshold args) (arg_min_size args)
  then (before ++ [LogCritical], 1)
  else (before ++ [LogComplete], 0).


(** Hashers whose every fuzzy digest makes [cmpF] fail. *)
Definition bad_hs : hashers :=
  {| ssdeep_hash := λ _, Ok "bad"; xxh64_hexdigest := λ _, Ok "ef46db3751d8e999" |}.

Definition sample_args : arguments :=
  {| arg_directory := "d"; arg_threshold := 70;
     arg_log_level := "INFO"; arg_min_size := 1024 |}.

(** ** More notions used to state what the code does *)

(** The paths [os.path.join(root, filename)] of a walk, in order. *)
Definition walked (fs : filesystem) (directory : string) : list string :=
  mjoin ((λ triple : string * list string, join fs triple.1 <$> triple.2)
           <$> (walk fs directory).1).

(** The file passes the size check and both of its hashes are truthy. *)
Definition eligible (fs : filesystem) (hs : hashers) (min_size : Z)
    (p : string) : bool :=
  match getsize fs p with
  | Ok size =>
      negb (size <? min_size)
      && truthy (hashes_of fs hs p).1 && truthy (hashes_of fs hs p).2
  | Raise _ => false
  end.

(** The events of one iteration whose size check returns. *)
Definition file_events (fs : filesystem) (hs : hashers) (min_size : Z)
    (p : string) : list event :=
  match getsize fs p with
  | Ok size =>
      if size <? min_size then [LogSkipSmall p]
      else (calculate_hashes fs hs p).2
  | Raise _ => []
  end.

(** One of the three [logging.error] calls of [calculate_hashes]. *)
Definition is_hash_error_log (p : string) (ev : event) : Prop :=
  ev = LogFileNotFound p ∨ ev = LogPermission p ∨ ∃ e, ev = LogHashError p e.

(** The paths that stand after the representative in the yielded lists. *)
Definition members_of (yielded : list (string * list string)) : list string :=
  mjoin (tail <$> yielded.*2).

(** The table with its strong digests replaced. *)
Definition restamp (g : string → hashval → hashval) (tbl : DigestTable)
  : DigestTable :=
  (λ entry : string * (hashval * hashval),
     (entry.1, (entry.2.1, g entry.1 entry.2.2))) <$> tbl.

(** What one iteration whose size check returns does to the table. *)
Definition add_file (fs : filesystem) (hs : hashers) (min_size : Z)
    (tbl : DigestTable) (p : string) : DigestTable :=
  if eligible fs hs min_size p then dict_set p (hashes_of fs hs p) tbl else tbl.

(** Every size check of the walk returns, and the walk itself ends well. *)
Definition sizes_return (fs : filesystem) (directory : string) : Prop :=
  (∀ p, p ∈ walked fs directory → ∃ size, getsize fs p = Ok size)
  ∧ (walk fs directory).2 = None.

(** A call of one inner loop: made for [p1], against another key. *)
Definition call_ok (p1 : string) (items : DigestTable)
    (call : string * string) : Prop :=
  call.1 = p1 ∧ call.2 ≠ p1 ∧ call.2 ∈ keys items.

(** * Lemmas *)

(** ** Dictionaries *)

Lemma keys_unique {V : Type} (d : list (string * V)) k v v' :
  NoDup (keys d) → (k, v) ∈ d → (k, v') ∈ d → v = v'.
Proof.
  unfold keys. induction d as [| [k0 v0] d IH]; intros Hnd Hv Hv'.
  - by apply elem_of_nil in Hv.
  - cbn [fmap list_fmap fst] in Hnd. apply NoDup_cons in Hnd as [Hk0 Hnd].
    apply elem_of_cons in Hv as [Hv | Hv], Hv' as [Hv' | Hv'].
    + congruence.
    + inversion Hv; subst. exfalso. apply Hk0.
      apply list_elem_of_fmap. by exists (k0, v').
    + inversion Hv'; subst. exfalso. apply Hk0.
      apply list_elem_of_fmap. by exists (k0, v).
    + by apply IH.
Qed.

Lemma elem_of_keys {V : Type} (d : list (string * V)) k :
  k ∈ keys d ↔ ∃ v, (k, v) ∈ d.
Proof.
  unfold keys. rewrite list_elem_of_fmap. split.
  - intros [[k' v] [-> Hin]]. by exists v.
  - intros [v Hin]. by exists (k, v).
Qed.

Lemma mjoin_lookup_disjoint {A : Type} (ls : list (list A)) :
  NoDup (mjoin ls) → ∀ i j a b x,
  ls !! i = Some a → ls !! j = Some b → x ∈ a → x ∈ b → i = j.
Proof.
  induction ls as [| l ls IH]; intros Hnd i j a b x Hi Hj Ha Hb.
  - by rewrite lookup_nil in Hi.
  - cbn [mjoin list_join] in Hnd. apply NoDup_app in Hnd as (_ & Hdis & Hnd).
    destruct i as [| i], j as [| j]; cbn in Hi, Hj.
    + done.
    + inversion Hi; subst l. exfalso. apply (Hdis x Ha).
      apply list_elem_of_join. exists b. split; [done |].
      by eapply list_elem_of_lookup_2.
    + inversion Hj; subst l. exfalso. apply (Hdis x Hb).
      apply list_elem_of_join. exists a. split; [done |].
      by eapply list_elem_of_lookup_2.
    + f_equal. by eapply IH.
Qed.

(** ** The inner loop of the specification's pass *)

Section inner_facts.
Variable compare : hashval → hashval → cmp_result.
Variable threshold : Z.

Lemma inner_body_similar p1 h1 clusters cluster p2 h2 x :
  inner_body_spec compare threshold p1 h1 (clusters, cluster) (p2, (h2, x)) =
  if bool_decide (p1 ≠ p2) && bool_decide (p2 ∉ clusters)
     && similar compare threshold h1 h2
  then (clusters ∪ {[p2]}, cluster ++ [p2])
  else (clusters, cluster).
Proof.
  unfold inner_body_spec, on_compare_spec, similar. cbn [fst].
  destruct (bool_decide (p1 ≠ p2) && bool_decide (p2 ∉ clusters)); simpl;
    [| done].
  by destruct (compare h1 h2).
Qed.

Lemma foldl_inner_body p1 h1 items : ∀ clusters cluster,
  foldl (inner_body_spec compare threshold p1 h1) (clusters, cluster) items =
  (clusters ∪ list_to_set (gathered compare threshold p1 h1 clusters items),
   cluster ++ gathered compare threshold p1 h1 clusters items).
Proof.
  induction items as [| [p2 [h2 x]] rest IH]; intros clusters cluster.
  - simpl. f_equal; [set_solver | by rewrite app_nil_r].
  - cbn [foldl gathered]. rewrite inner_body_similar.
    destruct (_ && _ && _).
    + rewrite IH. f_equal.
      * rewrite list_to_set_cons. set_solver.
      * by rewrite <- app_assoc.
    + apply IH.
Qed.

Lemma inner_loop_gathered tbl p1 h1 clusters :
  inner_loop_spec compare threshold tbl p1 h1 clusters =
  (clusters ∪ list_to_set (gathered compare threshold p1 h1 clusters tbl),
   p1 :: gathered compare threshold p1 h1 clusters tbl).
Proof. unfold inner_loop_spec. by rewrite foldl_inner_body. Qed.

(** What a gathered path satisfies. *)
Lemma gathered_sound p1 h1 items : ∀ clusters m,
  m ∈ gathered compare threshold p1 h1 clusters items →
  m ≠ p1 ∧ (m ∉ clusters) ∧
  ∃ h2 x, (m, (h2, x)) ∈ items ∧ similar compare threshold h1 h2 = true.
Proof.
  induction items as [| [p2 [h2 x]] rest IH]; intros clusters m Hm.
  - by apply elem_of_nil in Hm.
  - cbn [gathered] in Hm.
    destruct (bool_decide (p1 ≠ p2)) eqn:Hne; simpl in Hm;
      [destruct (bool_decide (p2 ∉ clusters)) eqn:Hreg; simpl in Hm;
       [destruct (similar compare threshold h1 h2) eqn:Hsim |] |].
    + apply elem_of_cons in Hm as [-> | Hm].
      * apply bool_decide_eq_true in Hne, Hreg.
        split; [done |]. split; [done |].
        exists h2, x. split; [left | done].
      * apply IH in Hm as (? & ? & h & y & ? & ?).
        split; [done |]. split; [set_solver |].
        exists h, y. split; [by right | done].
    + apply IH in Hm as (? & ? & h & y & ? & ?).
      repeat split; try done. exists h, y. split; [by right | done].
    + apply IH in Hm as (? & ? & h & y & ? & ?).
      repeat split; try done. exists h, y. split; [by right | done].
    + apply IH in Hm as (? & ? & h & y & ? & ?).
      repeat split; try done. exists h, y. split; [by right | done].
Qed.

(** A similar entry is claimed once the loop has run. *)
Lemma gathered_complete p1 h1 items : ∀ clusters p2 h2 x,
  (p2, (h2, x)) ∈ items → p2 ≠ p1 → similar compare threshold h1 h2 = true →
  p2 ∈ clusters ∨ p2 ∈ gathered compare threshold p1 h1 clusters items.
Proof.
  induction items as [| [q [hq y]] rest IH]; intros clusters p2 h2 x Hin Hne Hs.
  - by apply elem_of_nil in Hin.
  - cbn [gathered]. apply elem_of_cons in Hin as [Heq | Hin].
    + inversion Heq; subst q hq y. rewrite Hs, andb_true_r.
      rewrite (bool_decide_eq_true_2 (p1 ≠ p2)) by done. simpl.
      destruct (bool_decide (p2 ∉ clusters)) eqn:Hreg.
      * right. left.
      * apply bool_decide_eq_false in Hreg. left.
        by apply dec_stable.
    + destruct (_ && _ && _).
      * destruct (IH (clusters ∪ {[q]}) p2 h2 x Hin Hne Hs) as [H | H].
        -- apply elem_of_union in H as [H | H]; [by left |].
           apply elem_of_singleton in H as ->. right. left.
        -- right. by right.
      * by apply (IH _ _ h2 x).
Qed.

Lemma gathered_NoDup p1 h1 items : ∀ clusters,
  NoDup (gathered compare threshold p1 h1 clusters items).
Proof.
  induction items as [| [p2 [h2 x]] rest IH]; intros clusters.
  - constructor.
  - cbn [gathered]. destruct (_ && _ && _); [| apply IH].
    constructor; [| apply IH].
    intros Hin. apply gathered_sound in Hin as (_ & Hreg & _). set_solver.
Qed.

Lemma gathered_sublist p1 h1 items : ∀ clusters,
  gathered compare threshold p1 h1 clusters items `sublist_of` keys items.
Proof.
  induction items as [| [p2 [h2 x]] rest IH]; intros clusters.
  - constructor.
  - cbn [gathered]. unfold keys. cbn [fmap list_fmap fst].
    destruct (_ && _ && _).
    + apply sublist_skip, IH.
    + apply sublist_cons, IH.
Qed.

Lemma gathered_keys p1 h1 items clusters m :
  m ∈ gathered compare threshold p1 h1 clusters items → m ∈ keys items.
Proof.
  intros Hm. eapply elem_of_sublist; [done | apply gathered_sublist].
Qed.
End inner_facts.

(** ** The outer loop of the specification's pass *)

Section outer_facts.
Variable compare : hashval → hashval → cmp_result.
Variable threshold : Z.
Variable tbl : DigestTable.

Lemma outer_body_gathered clusters yielded p1 h1 x :
  outer_body_spec compare threshold tbl (clusters, yielded) (p1, (h1, x)) =
  if bool_decide (p1 ∈ clusters) then (clusters, yielded)
  else
    let ms := gathered compare threshold p1 h1 clusters tbl in
    (clusters ∪ list_to_set ms,
     match ms with
     | [] => yielded
     | _ :: _ => yielded ++ [(p1, p1 :: ms)]
     end).
Proof.
  unfold outer_body_spec. destruct (bool_decide (p1 ∈ clusters)); [done |].
  rewrite inner_loop_gathered. cbv zeta.
  by destruct (gathered compare threshold p1 h1 clusters tbl).
Qed.

Lemma cluster_run_emitted items : ∀ clusters yielded,
  (cluster_run_spec compare threshold tbl items (clusters, yielded)).2 =
  yielded ++ emitted compare threshold tbl clusters items.
Proof.
  unfold cluster_run_spec.
  induction items as [| [p1 [h1 x]] rest IH]; intros clusters yielded.
  - simpl. by rewrite app_nil_r.
  - cbn [foldl emitted]. rewrite outer_body_gathered.
    destruct (bool_decide (p1 ∈ clusters)); [apply IH |].
    cbv zeta. destruct (gathered compare threshold p1 h1 clusters tbl) eqn:Hms.
    + apply IH.
    + rewrite IH. by rewrite <- app_assoc.
Qed.

Lemma cluster_pass_emitted :
  cluster_pass_spec compare threshold tbl = emitted compare threshold tbl ∅ tbl.
Proof. unfold cluster_pass_spec. by rewrite cluster_run_emitted. Qed.
End outer_facts.

(** ** Shape and order of what the specification's pass yields *)

Section shape.
Variable compare : hashval → hashval → cmp_result.
Variable threshold : Z.
Variable tbl : DigestTable.

Lemma emitted_shape items : ∀ clusters,
  Forall (cluster_shape tbl) (emitted compare threshold tbl clusters items).
Proof.
  induction items as [| [p1 [h1 x]] rest IH]; intros clusters.
  - constructor.
  - cbn [emitted]. destruct (bool_decide (p1 ∈ clusters)); [apply IH |].
    cbv zeta.
    destruct (gathered compare threshold p1 h1 clusters tbl) as [| m ms] eqn:Hms;
      [apply IH |].
    constructor; [| apply IH].
    exists (m :: ms). cbn [fst snd]. rewrite <- Hms.
    split; [done |]. split; [by rewrite Hms |].
    split; [| split; [apply gathered_NoDup | apply gathered_sublist]].
    intros Hin. by apply gathered_sound in Hin as (? & _).
Qed.

Lemma emitted_reps_sublist items : ∀ clusters,
  (emitted compare threshold tbl clusters items).*1 `sublist_of` keys items.
Proof.
  induction items as [| [p1 [h1 x]] rest IH]; intros clusters.
  - constructor.
  - cbn [emitted]. unfold keys. cbn [fmap list_fmap fst].
    destruct (bool_decide (p1 ∈ clusters)); [apply sublist_cons, IH |].
    cbv zeta.
    destruct (gathered compare threshold p1 h1 clusters tbl) as [| m ms].
    + apply sublist_cons, IH.
    + cbn [fmap list_fmap fst]. apply sublist_skip, IH.
Qed.

(** Every path of a yielded pair is a key of the table. *)
Lemma cluster_pass_keys r c p :
  (r, c) ∈ cluster_pass_spec compare threshold tbl → p ∈ c → p ∈ keys tbl.
Proof.
  intros Hrc Hp.
  assert (r ∈ keys tbl) as Hr.
  { apply (elem_of_sublist (cluster_pass_spec compare threshold tbl).*1).
    - apply list_elem_of_fmap. by exists (r, c).
    - rewrite cluster_pass_emitted. apply emitted_reps_sublist. }
  rewrite cluster_pass_emitted in Hrc.
  pose proof (emitted_shape tbl ∅) as Hall.
  rewrite Forall_forall in Hall.
  destruct (Hall _ Hrc) as (ms & Hc & _ & _ & _ & Hsub). cbn [fst snd] in *.
  subst c. apply elem_of_cons in Hp as [-> | Hp]; [done |].
  by eapply elem_of_sublist.
Qed.
End shape.

(** ** No path in two clusters *)

Section disjoint.
Variable compare : hashval → hashval → cmp_result.
Variable threshold : Z.
Variable tbl : DigestTable.
Hypothesis compare_sym : ∀ a b, compare a b = compare b a.
Hypothesis tbl_NoDup : NoDup (keys tbl).

Lemma similar_sym h1 h2 :
  similar compare threshold h1 h2 = similar compare threshold h2 h1.
Proof. unfold similar. by rewrite compare_sym. Qed.

Lemma compared_all_claimed pre clusters p1 v :
  p1 ∈ clusters →
  compared_all compare threshold tbl pre clusters →
  compared_all compare threshold tbl (pre ++ [(p1, v)]) clusters.
Proof.
  intros Hp1 Hinv p h x Hin Hp. apply elem_of_app in Hin as [Hin | Hin].
  - by eapply Hinv.
  - apply list_elem_of_singleton in Hin. inversion Hin; subst. done.
Qed.

Lemma compared_all_gathered pre clusters p1 h1 x1 :
  compared_all compare threshold tbl pre clusters →
  compared_all compare threshold tbl (pre ++ [(p1, (h1, x1))])
    (clusters ∪ list_to_set (gathered compare threshold p1 h1 clusters tbl)).
Proof.
  intros Hinv p h x Hin Hp p2 h2 x2 Hin2 Hne.
  apply not_elem_of_union in Hp as [Hp Hpms].
  apply elem_of_app in Hin as [Hin | Hin].
  - destruct (Hinv p h x Hin Hp p2 h2 x2 Hin2 Hne) as [H | H];
      [left; set_solver | by right].
  - apply list_elem_of_singleton in Hin. inversion Hin; subst p h x.
    destruct (similar compare threshold h1 h2) eqn:Hs; [left | by right].
    destruct (gathered_complete compare threshold p1 h1 tbl clusters
                p2 h2 x2 Hin2 Hne Hs) as [H | H].
    + set_solver.
    + apply elem_of_union. right. by apply elem_of_list_to_set.
Qed.

Lemma emitted_disjoint items : ∀ pre clusters,
  tbl = pre ++ items →
  compared_all compare threshold tbl pre clusters →
  NoDup (all_paths (emitted compare threshold tbl clusters items)) ∧
  ∀ q, q ∈ all_paths (emitted compare threshold tbl clusters items) →
       (q ∉ clusters) ∧ q ∉ keys pre.
Proof.
  unfold all_paths.
  induction items as [| [p1 [h1 x1]] rest IH]; intros pre clusters Htbl Hinv.
  - split; [constructor |]. intros q Hq. by apply elem_of_nil in Hq.
  - assert (tbl = (pre ++ [(p1, (h1, x1))]) ++ rest) as Htbl'.
    { by rewrite <- app_assoc. }
    assert ((p1, (h1, x1)) ∈ tbl) as Hp1tbl.
    { rewrite Htbl. apply elem_of_app. right. left. }
    assert (p1 ∉ keys pre) as Hp1pre.
    { pose proof tbl_NoDup as Hnd. rewrite Htbl in Hnd. unfold keys in *.
      rewrite fmap_app in Hnd. apply NoDup_app in Hnd as (_ & Hdis & _).
      intros Hin. apply (Hdis p1 Hin). cbn. left. }
    assert (∀ q, q ∉ keys (pre ++ [(p1, (h1, x1))]) → q ∉ keys pre) as Hpre.
    { intros q Hq Hin. apply Hq. unfold keys in *. rewrite fmap_app.
      apply elem_of_app. by left. }
    cbn [emitted]. destruct (bool_decide (p1 ∈ clusters)) eqn:Hreg.
    + apply bool_decide_eq_true in Hreg.
      destruct (IH _ clusters Htbl' (compared_all_claimed _ _ _ _ Hreg Hinv))
        as [Hnd Hq].
      split; [done |]. intros q Hin. destruct (Hq q Hin). split; auto.
    + apply bool_decide_eq_false in Hreg. cbv zeta.
      destruct (IH _ _ Htbl' (compared_all_gathered pre clusters p1 h1 x1 Hinv))
        as [Hnd Hq].
      assert (∀ q, q ∈ gathered compare threshold p1 h1 clusters tbl →
                   (q ∉ clusters) ∧ q ∉ keys pre) as Hms.
      { intros q Hin.
        destruct (gathered_sound _ _ _ _ _ _ _ Hin)
          as (Hne & Hqreg & h2 & x2 & Hq2 & Hs).
        split; [done |]. intros Hqpre.
        apply elem_of_keys in Hqpre as [[hq xq] Hqpre].
        assert ((q, (hq, xq)) ∈ tbl) as Hqtbl.
        { rewrite Htbl. apply elem_of_app. by left. }
        pose proof (keys_unique _ _ _ _ tbl_NoDup Hq2 Hqtbl) as Heq.
        inversion Heq; subst hq xq.
        destruct (Hinv q h2 x2 Hqpre Hqreg p1 h1 x1 Hp1tbl) as [H | H].
        - congruence.
        - done.
        - rewrite similar_sym in H. congruence. }
      destruct (gathered compare threshold p1 h1 clusters tbl)
        as [| m ms] eqn:Hg.
      * split; [done |]. intros q Hin. destruct (Hq q Hin) as [Hq1 Hq2].
        split; [set_solver | auto].
      * rewrite <- Hg in *. cbn [fmap list_fmap snd mjoin list_join].
        split.
        -- apply NoDup_app. split; [| split; [| done]].
           ++ constructor; [| apply gathered_NoDup].
              intros Hin. by apply gathered_sound in Hin as (? & _).
           ++ intros q Hin Hin'. destruct (Hq q Hin') as [Hq1 Hq2].
              apply elem_of_cons in Hin as [-> | Hin].
              ** apply Hq2. unfold keys. rewrite fmap_app.
                 apply elem_of_app. right. cbn. left.
              ** apply Hq1. apply elem_of_union. right.
                 by apply elem_of_list_to_set.
        -- intros q Hin. apply elem_of_app in Hin as [Hin | Hin].
           ++ apply elem_of_cons in Hin as [-> | Hin]; [done | by apply Hms].
           ++ destruct (Hq q Hin) as [Hq1 Hq2]. split; [set_solver | auto].
Qed.

Lemma cluster_pass_NoDup :
  NoDup (all_paths (cluster_pass_spec compare threshold tbl)).
Proof.
  rewrite cluster_pass_emitted.
  apply (emitted_disjoint tbl [] ∅); [done |].
  intros p h x Hin. by apply elem_of_nil in Hin.
Qed.
End disjoint.

(** ** Thresholds *)

Section thresholds.
Variable compare : hashval → hashval → cmp_result.

Lemma similar_mono t1 t2 h1 h2 :
  t1 ≤ t2 → similar compare t2 h1 h2 = true → similar compare t1 h1 h2 = true.
Proof.
  unfold similar. intros Hle. destruct (compare h1 h2); [| done | done].
  rewrite !Z.geb_le. lia.
Qed.

(** From one registry, the lower threshold gathers at least as much. *)
Lemma gathered_mono t1 t2 p1 h1 clusters items m :
  t1 ≤ t2 →
  m ∈ gathered compare t2 p1 h1 clusters items →
  m ∈ gathered compare t1 p1 h1 clusters items.
Proof.
  intros Hle Hm.
  apply gathered_sound in Hm as (Hne & Hreg & h2 & x & Hin & Hs).
  apply (similar_mono t1 t2 _ _ Hle) in Hs.
  by destruct (gathered_complete compare t1 p1 h1 items clusters m h2 x
                 Hin Hne Hs).
Qed.

Lemma emitted_first threshold tbl p1 h1 x rest c :
  p1 ∉ keys rest →
  (p1, c) ∈ emitted compare threshold tbl ∅ ((p1, (h1, x)) :: rest) ↔
  c = p1 :: gathered compare threshold p1 h1 ∅ tbl
  ∧ gathered compare threshold p1 h1 ∅ tbl ≠ [].
Proof.
  intros Hp1.
  assert (∀ clusters, (p1, c) ∉ emitted compare threshold tbl clusters rest)
    as Hrest.
  { intros clusters Hin. apply Hp1.
    apply (elem_of_sublist (emitted compare threshold tbl clusters rest).*1);
      [| apply emitted_reps_sublist].
    apply list_elem_of_fmap. by exists (p1, c). }
  cbn [emitted].
  rewrite bool_decide_eq_false_2 by set_solver. cbv zeta.
  destruct (gathered compare threshold p1 h1 ∅ tbl) as [| m ms] eqn:Hg.
  - split; [intros Hin; by apply Hrest in Hin | by intros [_ ?]].
  - split.
    + intros Hin. apply elem_of_cons in Hin as [Heq | Hin].
      * inversion Heq. done.
      * by apply Hrest in Hin.
    + intros [-> _]. left.
Qed.
End thresholds.

(** ** The code against the specification's pass *)

Section for_each_facts.
Context {St A : Type}.

(** A loop that is not left runs its body over all the items. *)
Lemma for_each_foldl (body : St → A → St * bool) (f : St → A → St) :
  (∀ st a, (body st a).2 = false → (body st a).1 = f st a) →
  ∀ items st, (for_each body st items).2 = false →
              (for_each body st items).1 = foldl f st items.
Proof.
  intros Hbody items. induction items as [| a rest IH]; intros st; [done |].
  cbn [for_each foldl]. pose proof (Hbody st a) as Ha.
  destruct (body st a) as [st' raised]. cbn [fst snd] in Ha.
  destruct raised; [done |]. rewrite <- Ha by done. apply IH.
Qed.

Lemma for_each_ext (body1 body2 : St → A → St * bool) :
  (∀ st a, body1 st a = body2 st a) →
  ∀ items st, for_each body1 st items = for_each body2 st items.
Proof.
  intros Hext items. induction items as [| a rest IH]; intros st; [done |].
  cbn [for_each]. rewrite Hext. destruct (body2 st a) as [st' raised].
  destruct raised; [done | apply IH].
Qed.

Lemma for_each_fmap {B : Type} (g : B → A) (body : St → A → St * bool) :
  ∀ items st,
    for_each body st (g <$> items) = for_each (λ st b, body st (g b)) st items.
Proof.
  induction items as [| b rest IH]; intros st; [done |].
  cbn [fmap list_fmap for_each]. destruct (body st (g b)) as [st' raised].
  destruct raised; [done | apply IH].
Qed.
End for_each_facts.

Section code_and_spec.
Variable compare : hashval → hashval → cmp_result.
Variable threshold : Z.
Variable tbl : DigestTable.

Lemma inner_body_returns p1 h1 st item :
  (inner_body compare threshold p1 h1 st item).2 = false →
  (inner_body compare threshold p1 h1 st item).1
  = inner_body_spec compare threshold p1 h1 st item.
Proof.
  destruct item as [p2 [h2 x]], st as [clusters cluster].
  unfold inner_body, inner_body_spec, on_compare, on_compare_spec. cbn [fst].
  destruct (_ && _); [| done].
  destruct (compare h1 h2) as [s | |]; cbn; [| done | done].
  by destruct (s >=? threshold).
Qed.

Lemma inner_loop_returns p1 h1 clusters :
  (inner_loop compare threshold tbl p1 h1 clusters).2 = false →
  (inner_loop compare threshold tbl p1 h1 clusters).1
  = inner_loop_spec compare threshold tbl p1 h1 clusters.
Proof.
  unfold inner_loop, inner_loop_spec. apply for_each_foldl.
  intros st a. apply inner_body_returns.
Qed.

Lemma outer_body_returns st item :
  (outer_body compare threshold tbl st item).2 = false →
  (outer_body compare threshold tbl st item).1
  = outer_body_spec compare threshold tbl st item.
Proof.
  destruct st as [clusters yielded], item as [p1 [h1 x]].
  unfold outer_body, outer_body_spec.
  destruct (bool_decide (p1 ∈ clusters)); [done |].
  pose proof (inner_loop_returns p1 h1 clusters) as Hin.
  destruct (inner_loop compare threshold tbl p1 h1 clusters)
    as [[clusters' cluster] raised]. cbn [fst snd] in Hin.
  destruct raised; [done |]. rewrite <- Hin by done.
  by destruct (1 <? length cluster)%nat.
Qed.

(** A step that raises yields nothing. *)
Lemma outer_body_raises st item :
  (outer_body compare threshold tbl st item).2 = true →
  (outer_body compare threshold tbl st item).1.2 = st.2.
Proof.
  destruct st as [clusters yielded], item as [p1 [h1 x]]. unfold outer_body.
  destruct (bool_decide (p1 ∈ clusters)); [done |].
  destruct (inner_loop compare threshold tbl p1 h1 clusters)
    as [[clusters' cluster] raised].
  destruct raised; [done |]. by destruct (1 <? length cluster)%nat.
Qed.

Lemma cluster_run_returns items st :
  (cluster_run compare threshold tbl items st).2 = false →
  (cluster_run compare threshold tbl items st).1
  = cluster_run_spec compare threshold tbl items st.
Proof.
  unfold cluster_run, cluster_run_spec. apply for_each_foldl.
  intros st' a. apply outer_body_returns.
Qed.

(** What the code yields is the beginning of what the specification's
    pass yields. *)
Lemma cluster_run_prefix items : ∀ st,
  (cluster_run compare threshold tbl items st).1.2
  `prefix_of` (cluster_run_spec compare threshold tbl items st).2.
Proof.
  induction items as [| a rest IH]; intros st; [done |].
  pose proof (outer_body_returns st a) as Hret.
  pose proof (outer_body_raises st a) as Hraise.
  unfold cluster_run in *. cbn [for_each].
  destruct (outer_body compare threshold tbl st a) as [st' raised].
  cbn [fst snd] in *. destruct raised.
  - cbn [fst snd]. rewrite Hraise by done. destruct st as [clusters yielded].
    rewrite cluster_run_emitted. by apply prefix_app_r.
  - unfold cluster_run_spec. cbn [foldl]. rewrite <- Hret by done. apply IH.
Qed.

Lemma cluster_pass_prefix :
  cluster_pass compare threshold tbl
  `prefix_of` cluster_pass_spec compare threshold tbl.
Proof. apply cluster_run_prefix. Qed.

Lemma cluster_pass_returns :
  cluster_pass_raises compare threshold tbl = false →
  cluster_pass compare threshold tbl = cluster_pass_spec compare threshold tbl.
Proof.
  unfold cluster_pass_raises, cluster_pass, cluster_pass_spec. intros Hret.
  by rewrite cluster_run_returns.
Qed.

Lemma cluster_pass_elem rc :
  rc ∈ cluster_pass compare threshold tbl →
  rc ∈ cluster_pass_spec compare threshold tbl.
Proof.
  destruct cluster_pass_prefix as [k ->]. intros H. apply elem_of_app. by left.
Qed.

Lemma cluster_pass_lookup (i : nat) rc :
  cluster_pass compare threshold tbl !! i = Some rc →
  cluster_pass_spec compare threshold tbl !! i = Some rc.
Proof. intros H. eapply prefix_lookup_Some; [done | apply cluster_pass_prefix]. Qed.

Lemma cluster_pass_Forall (P : string * list string → Prop) :
  Forall P (cluster_pass_spec compare threshold tbl) →
  Forall P (cluster_pass compare threshold tbl).
Proof.
  destruct cluster_pass_prefix as [k ->]. by intros [? _]%Forall_app.
Qed.

(** The pairs already yielded stay. *)
Lemma outer_body_extends st item :
  st.2 `prefix_of` (outer_body compare threshold tbl st item).1.2.
Proof.
  destruct st as [clusters yielded], item as [p1 [h1 x]]. unfold outer_body.
  destruct (bool_decide (p1 ∈ clusters)); [done |].
  destruct (inner_loop compare threshold tbl p1 h1 clusters)
    as [[clusters' cluster] raised].
  destruct raised; [done |].
  destruct (1 <? length cluster)%nat; [| done]. by apply prefix_app_r.
Qed.

Lemma cluster_run_extends items : ∀ st,
  st.2 `prefix_of` (cluster_run compare threshold tbl items st).1.2.
Proof.
  induction items as [| a rest IH]; intros st; [done |].
  pose proof (outer_body_extends st a) as Hext.
  unfold cluster_run in *. cbn [for_each].
  destruct (outer_body compare threshold tbl st a) as [st' raised].
  cbn [fst snd] in Hext. destruct raised; [done |].
  etrans; [exact Hext | apply IH].
Qed.
End code_and_spec.

Lemma cmpA_sym a b : cmpA a b = cmpA b a.
Proof.
  destruct a as [x |], b as [y |]; cbn; try done.
  by rewrite String.eqb_sym.
Qed.

Lemma tblA_NoDup : NoDup (keys tblA).
Proof. apply (bool_decide_unpack _). by vm_compute. Qed.

Lemma tblB_NoDup : NoDup (keys tblB).
Proof. apply (bool_decide_unpack _). by vm_compute. Qed.

(** ** When the inner loop is left *)

Section raising.
Variable compare : hashval → hashval → cmp_result.

Lemma outer_body_raised threshold tbl clusters yielded p1 h1 x :
  (outer_body compare threshold tbl (clusters, yielded) (p1, (h1, x))).2
  = if bool_decide (p1 ∈ clusters) then false
    else (inner_loop compare threshold tbl p1 h1 clusters).2.
Proof.
  unfold outer_body. destruct (bool_decide (p1 ∈ clusters)); [done |].
  destruct (inner_loop compare threshold tbl p1 h1 clusters)
    as [[clusters' cluster] raised].
  destruct raised; [done |]. by destruct (1 <? length cluster)%nat.
Qed.

(** A step whose inner loop returns is the step of the specification. *)
Lemma outer_body_unclaimed threshold tbl clusters yielded p1 h1 x :
  p1 ∉ clusters →
  (inner_loop compare threshold tbl p1 h1 clusters).2 = false →
  outer_body compare threshold tbl (clusters, yielded) (p1, (h1, x))
  = (outer_body_spec compare threshold tbl (clusters, yielded) (p1, (h1, x)),
     false).
Proof.
  intros Hp1 Hret.
  assert ((outer_body compare threshold tbl (clusters, yielded)
             (p1, (h1, x))).2 = false) as Hout.
  { rewrite outer_body_raised. by rewrite bool_decide_eq_false_2. }
  pose proof (outer_body_returns compare threshold tbl (clusters, yielded)
                (p1, (h1, x))) as Hspec.
  destruct (outer_body compare threshold tbl (clusters, yielded) (p1, (h1, x)))
    as [st' raised]. cbn [fst snd] in *. subst raised. by rewrite Hspec.
Qed.

(** With distinct keys, the inner loop is left exactly when some entry
    it has to compare fails; the threshold plays no part in that. *)
Lemma inner_raises_iff threshold p1 h1 items : ∀ clusters cluster,
  NoDup (keys items) →
  (for_each (inner_body compare threshold p1 h1) (clusters, cluster) items).2
  = true
  ↔ ∃ q h x, (q, (h, x)) ∈ items ∧ q ≠ p1 ∧ (q ∉ clusters)
             ∧ is_failure (compare h1 h).
Proof.
  unfold keys.
  induction items as [| [q [h x]] rest IH]; intros clusters cluster Hnd.
  - cbn. split; [done |]. intros (? & ? & ? & H & _). by apply elem_of_nil in H.
  - cbn [fmap list_fmap fst] in Hnd. apply NoDup_cons in Hnd as [Hq Hnd].
    assert (∀ q' h' x', (q', (h', x')) ∈ rest → q' ≠ q) as Hother.
    { intros q' h' x' Hin ->. apply Hq. apply list_elem_of_fmap.
      by exists (q, (h', x')). }
    assert (∀ clusters' cluster' : _,
              (clusters' = clusters ∨ clusters' = clusters ∪ {[q]}) →
              ¬ (q ≠ p1 ∧ (q ∉ clusters) ∧ is_failure (compare h1 h)) →
              (for_each (inner_body compare threshold p1 h1)
                 (clusters', cluster') rest).2 = true
              ↔ ∃ q0 h0 x0, (q0, (h0, x0)) ∈ (q, (h, x)) :: rest ∧ q0 ≠ p1
                   ∧ (q0 ∉ clusters) ∧ is_failure (compare h1 h0)) as Hrest.
    { intros clusters' cluster' Hcl Hhead. rewrite (IH _ _ Hnd). split.
      - intros (q' & h' & x' & Hin & Hne & Hreg & Hf).
        exists q', h', x'. split; [by right |]. split; [done |].
        split; [| done]. destruct Hcl as [-> | ->]; [done | set_solver].
      - intros (q' & h' & x' & Hin & Hne & Hreg & Hf).
        apply elem_of_cons in Hin as [Heq | Hin].
        + inversion Heq; subst. by destruct Hhead.
        + exists q', h', x'. split; [done |]. split; [done |].
          split; [| done]. destruct Hcl as [-> | ->]; [done |].
          pose proof (Hother _ _ _ Hin). set_solver. }
    cbn [for_each]. unfold inner_body at 1. cbn [fst].
    destruct (bool_decide (p1 ≠ q)) eqn:Hne; cbn [andb];
      [destruct (bool_decide (q ∉ clusters)) eqn:Hreg |].
    + apply bool_decide_eq_true in Hne, Hreg. unfold on_compare.
      destruct (compare h1 h) as [s | |] eqn:Hc.
      * destruct (s >=? threshold); apply Hrest; auto;
          intros (_ & _ & [? | ?]); congruence.
      * cbn. split; [| done]. intros _. exists q, h, x.
        split; [left |]. split; [done |]. split; [done |].
        rewrite Hc. by left.
      * cbn. split; [| done]. intros _. exists q, h, x.
        split; [left |]. split; [done |]. split; [done |].
        rewrite Hc. by right.
    + apply bool_decide_eq_false in Hreg. apply Hrest; [by left |].
      by intros (_ & ? & _).
    + apply bool_decide_eq_false in Hne. apply Hrest; [by left |].
      intros (? & _). apply Hne. done.
Qed.

Lemma inner_loop_raises_threshold t1 t2 tbl p1 h1 clusters :
  NoDup (keys tbl) →
  (inner_loop compare t1 tbl p1 h1 clusters).2
  = (inner_loop compare t2 tbl p1 h1 clusters).2.
Proof.
  intros Hnd. unfold inner_loop. apply Bool.eq_iff_eq_true.
  by rewrite !inner_raises_iff.
Qed.

(** The inner loop returns when the comparisons it makes return. *)
Lemma inner_returns threshold p1 h1 items : ∀ clusters cluster,
  (∀ q h x, (q, (h, x)) ∈ items → q ≠ p1 →
     ∃ s, compare h1 h = Similarity s) →
  (for_each (inner_body compare threshold p1 h1) (clusters, cluster) items).2
  = false.
Proof.
  induction items as [| [q [h x]] rest IH]; intros clusters cluster Hall;
    [done |].
  assert (∀ clusters' cluster',
            (for_each (inner_body compare threshold p1 h1)
               (clusters', cluster') rest).2 = false) as Hrest.
  { intros clusters' cluster'. apply IH. intros q' h' x' Hin.
    apply (Hall q' h' x'). by right. }
  cbn [for_each]. unfold inner_body at 1. cbn [fst].
  destruct (bool_decide (p1 ≠ q)) eqn:Hne; cbn [andb]; [| apply Hrest].
  destruct (bool_decide (q ∉ clusters)); [| apply Hrest].
  apply bool_decide_eq_true in Hne.
  destruct (Hall q h x) as [s ->]; [left | done |]. unfold on_compare.
  destruct (s >=? threshold); apply Hrest.
Qed.

(** The first entry of the table: its pair is yielded when its inner
    loop returns with something gathered, and nothing at all is yielded
    when its inner loop is left. *)
Lemma cluster_run_first threshold tbl p1 h1 x rest :
  (inner_loop compare threshold tbl p1 h1 ∅).2 = false →
  gathered compare threshold p1 h1 ∅ tbl ≠ [] →
  (p1, p1 :: gathered compare threshold p1 h1 ∅ tbl)
  ∈ (cluster_run compare threshold tbl ((p1, (h1, x)) :: rest) (∅, [])).1.2.
Proof.
  intros Hret Hne. unfold cluster_run. cbn [for_each].
  rewrite outer_body_unclaimed by (done || apply not_elem_of_empty).
  rewrite outer_body_gathered.
  rewrite bool_decide_eq_false_2 by apply not_elem_of_empty. cbv zeta.
  destruct (gathered compare threshold p1 h1 ∅ tbl) as [| m ms] eqn:Hg;
    [done |].
  match goal with
  | |- _ ∈ (for_each ?body ?st ?items).1.2 =>
      destruct (cluster_run_extends compare threshold tbl items st) as [k Hk]
  end.
  unfold cluster_run in Hk. rewrite Hk. cbn [snd app]. left.
Qed.

Lemma cluster_run_first_raises threshold tbl p1 h1 x rest :
  (inner_loop compare threshold tbl p1 h1 ∅).2 = true →
  (cluster_run compare threshold tbl ((p1, (h1, x)) :: rest) (∅, [])).1.2 = [].
Proof.
  intros Hraise. unfold cluster_run. cbn [for_each].
  pose proof (outer_body_raised threshold tbl ∅ [] p1 h1 x) as Hr.
  rewrite bool_decide_eq_false_2, Hraise in Hr by apply not_elem_of_empty.
  pose proof (outer_body_raises compare threshold tbl (∅, [])
                (p1, (h1, x)) Hr) as Hy.
  destruct (outer_body compare threshold tbl (∅, []) (p1, (h1, x)))
    as [st' raised]. cbn [fst snd] in *. by subst raised.
Qed.
End raising.

(** Two different pairs of the specification's pass share no path. *)
Lemma spec_pairs_disjoint compare threshold (tbl : DigestTable) :
  (∀ a b, compare a b = compare b a) →
  NoDup (keys tbl) →
  ∀ (i j : nat) ri ci rj cj,
    cluster_pass_spec compare threshold tbl !! i = Some (ri, ci) →
    cluster_pass_spec compare threshold tbl !! j = Some (rj, cj) →
    i ≠ j →
    ∀ p, ¬ ((p = ri ∨ p ∈ ci) ∧ (p = rj ∨ p ∈ cj)).
Proof.
  intros Hsym Hnd i j ri ci rj cj Hi Hj Hij p [Hpi Hpj]. apply Hij.
  pose proof (emitted_shape compare threshold tbl tbl ∅) as Hshape.
  rewrite <- cluster_pass_emitted, Forall_forall in Hshape.
  assert (∀ r c, (r, c) ∈ cluster_pass_spec compare threshold tbl →
                 p = r ∨ p ∈ c → p ∈ c) as Hin.
  { intros r c Hrc [-> | H]; [| done].
    destruct (Hshape _ Hrc) as (ms & Hc & _). cbn [fst snd] in Hc.
    rewrite Hc. left. }
  apply (mjoin_lookup_disjoint ((cluster_pass_spec compare threshold tbl).*2)
           (cluster_pass_NoDup compare threshold tbl Hsym Hnd) i j ci cj p).
  - by rewrite list_lookup_fmap, Hi.
  - by rewrite list_lookup_fmap, Hj.
  - eapply Hin; [by eapply list_elem_of_lookup_2 | done].
  - eapply Hin; [by eapply list_elem_of_lookup_2 | done].
Qed.

(** C1: with a symmetric comparison and a table whose keys are distinct
    (a [dict]), two different yielded pairs share no path, whether the
    path stands as the representative or in the yielded list. *)
Theorem clusters_pairwise_disjoint compare threshold (tbl : DigestTable) :
  (∀ a b, compare a b = compare b a) →
  NoDup (keys tbl) →
  ∀ (i j : nat) ri ci rj cj,
    cluster_pass compare threshold tbl !! i = Some (ri, ci) →
    cluster_pass compare threshold tbl !! j = Some (rj, cj) →
    i ≠ j →
    ∀ p, ¬ ((p = ri ∨ p ∈ ci) ∧ (p = rj ∨ p ∈ cj)).
Proof.
  intros Hsym Hnd i j ri ci rj cj Hi Hj.
  apply (spec_pairs_disjoint compare threshold tbl Hsym Hnd
           i j ri ci rj cj); by apply cluster_pass_lookup.
Qed.

Lemma clusters_pairwise_disjoint_witness :
  cluster_pass cmpA 70 tblB = [("a", ["a"; "b"]); ("c", ["c"; "d"])] ∧
  ∀ p, ¬ ((p = "a" ∨ p ∈ ["a"; "b"]) ∧ (p = "c" ∨ p ∈ ["c"; "d"])).
Proof.
  split; [by vm_compute |].
  apply (clusters_pairwise_disjoint cmpA 70 tblB cmpA_sym tblB_NoDup
           0%nat 1%nat "a" ["a"; "b"] "c" ["c"; "d"]).
  - by vm_compute.
  - by vm_compute.
  - lia.
Defined.

(** The shape of the pairs of the specification's pass. *)
Lemma spec_pair_shape compare threshold (tbl : DigestTable) :
  Forall (λ rc : string * list string,
            ∃ ms, rc.2 = rc.1 :: ms ∧ ms ≠ [] ∧ (rc.1 ∉ ms) ∧ NoDup ms
                  ∧ Forall (λ m, m ∈ keys tbl) ms)
         (cluster_pass_spec compare threshold tbl).
Proof.
  rewrite cluster_pass_emitted.
  eapply Forall_impl; [apply emitted_shape |].
  intros [r c] (ms & Hc & Hne & Hr & Hnd & Hsub). exists ms.
  repeat split; try done.
  apply Forall_forall. intros m Hm. by eapply elem_of_sublist.
Qed.

(** C2, as the code has it: every yielded pair is a representative and a
    list that starts with that representative and goes on with at least
    one path; those further paths are distinct keys of the table, none of
    them the representative. *)
Theorem yielded_pair_shape compare threshold (tbl : DigestTable) :
  Forall (λ rc : string * list string,
            ∃ ms, rc.2 = rc.1 :: ms ∧ ms ≠ [] ∧ (rc.1 ∉ ms) ∧ NoDup ms
                  ∧ Forall (λ m, m ∈ keys tbl) ms)
         (cluster_pass compare threshold tbl).
Proof. apply cluster_pass_Forall, spec_pair_shape. Qed.

(** C2, as stated, fails: the representative is the first
    element of the list yielded with it. *)
Lemma representative_in_yielded_list :
  cluster_pass cmpA 70 tblA = [("a", ["a"; "b"])] ∧ "a" ∈ ["a"; "b"].
Proof. split; [by vm_compute | left]. Qed.

(** The order of what the specification's pass yields. *)
Lemma spec_insertion_order compare threshold (tbl : DigestTable) :
  Forall (λ rc : string * list string,
            ∃ ms, rc.2 = rc.1 :: ms ∧ ms `sublist_of` keys tbl)
         (cluster_pass_spec compare threshold tbl)
  ∧ (cluster_pass_spec compare threshold tbl).*1 `sublist_of` keys tbl.
Proof.
  rewrite cluster_pass_emitted. split.
  - eapply Forall_impl; [apply emitted_shape |].
    intros [r c] (ms & Hc & _ & _ & _ & Hsub). by exists ms.
  - apply emitted_reps_sublist.
Qed.

(** C10: the yielded list starts with the representative, its further
    elements come in the order of the table, and so do the
    representatives of successive pairs. *)
Theorem yielded_in_insertion_order compare threshold (tbl : DigestTable) :
  Forall (λ rc : string * list string,
            ∃ ms, rc.2 = rc.1 :: ms ∧ ms `sublist_of` keys tbl)
         (cluster_pass compare threshold tbl)
  ∧ (cluster_pass compare threshold tbl).*1 `sublist_of` keys tbl.
Proof.
  destruct (spec_insertion_order compare threshold tbl)
    as [Hlists Hreps].
  split; [by apply cluster_pass_Forall |].
  destruct (cluster_pass_prefix compare threshold tbl) as [k Hk].
  rewrite Hk, fmap_app in Hreps.
  etrans; [| exact Hreps]. by apply sublist_inserts_r.
Qed.

(** C4, as the code has it: with distinct keys and [t1 <= t2], a cluster
    that the first entry of the table represents at [t2] is yielded for it
    at [t1] too, with every path of the [t2] cluster in it. *)
Theorem first_cluster_monotone compare (t1 t2 : Z) p1 v (rest : DigestTable) :
  t1 ≤ t2 →
  NoDup (keys ((p1, v) :: rest)) →
  ∀ c2, (p1, c2) ∈ cluster_pass compare t2 ((p1, v) :: rest) →
  ∃ c1, (p1, c1) ∈ cluster_pass compare t1 ((p1, v) :: rest)
        ∧ ∀ q, q ∈ c2 → q ∈ c1.
Proof.
  intros Hle Hnd c2 Hc2. destruct v as [h1 x].
  assert (p1 ∉ keys rest) as Hp1.
  { unfold keys in *. cbn [fmap list_fmap fst] in Hnd.
    by apply NoDup_cons in Hnd as [? _]. }
  assert ((inner_loop compare t2 ((p1, (h1, x)) :: rest) p1 h1 ∅).2 = false)
    as Hret2.
  { destruct (inner_loop compare t2 ((p1, (h1, x)) :: rest) p1 h1 ∅).2
      eqn:Hraise; [| done].
    unfold cluster_pass in Hc2.
    rewrite (cluster_run_first_raises compare t2 _ p1 h1 x rest Hraise) in Hc2.
    by apply elem_of_nil in Hc2. }
  assert ((inner_loop compare t1 ((p1, (h1, x)) :: rest) p1 h1 ∅).2 = false)
    as Hret1.
  { by rewrite (inner_loop_raises_threshold compare t1 t2). }
  apply cluster_pass_elem in Hc2. rewrite cluster_pass_emitted in Hc2.
  apply emitted_first in Hc2 as [-> Hne]; [| done].
  assert (∀ q, q ∈ gathered compare t2 p1 h1 ∅ ((p1, (h1, x)) :: rest) →
               q ∈ gathered compare t1 p1 h1 ∅ ((p1, (h1, x)) :: rest))
    as Hmono.
  { intros q. by apply (gathered_mono compare t1 t2). }
  exists (p1 :: gathered compare t1 p1 h1 ∅ ((p1, (h1, x)) :: rest)). split.
  - apply cluster_run_first; [done |].
    destruct (gathered compare t2 p1 h1 ∅ ((p1, (h1, x)) :: rest))
      as [| m ms] eqn:Hg; [done |].
    intros Heq. specialize (Hmono m). rewrite Heq in Hmono.
    apply (not_elem_of_nil m), Hmono. left.
  - intros q Hq. apply elem_of_cons in Hq as [-> | Hq]; [left |].
    right. by apply Hmono.
Qed.

Lemma first_cluster_monotone_witness :
  ∃ c1, ("a", c1) ∈ cluster_pass cmpA 20 tblA
        ∧ ∀ q, q ∈ ["a"; "b"] → q ∈ c1.
Proof.
  apply (first_cluster_monotone cmpA 20 70 "a" (Some "h1", Some "x1")
           [("b", (Some "h1", Some "x2")); ("c", (Some "h2", Some "x3"))]).
  - lia.
  - exact tblA_NoDup.
  - vm_compute. left.
Defined.

(** C4, as stated, fails: B and C are clustered together at
    threshold 70 and not at threshold 40, where A has claimed B first. *)
Lemma lower_threshold_separates_pair :
  40 ≤ 70
  ∧ cluster_pass cmpC 70 tblC = [("B", ["B"; "C"])]
  ∧ cluster_pass cmpC 40 tblC = [("A", ["A"; "B"])]
  ∧ clustered_together (cluster_pass cmpC 70 tblC) "B" "C"
  ∧ ¬ clustered_together (cluster_pass cmpC 40 tblC) "B" "C".
Proof.
  assert (cluster_pass cmpC 70 tblC = [("B", ["B"; "C"])]) as H70
    by (by vm_compute).
  assert (cluster_pass cmpC 40 tblC = [("A", ["A"; "B"])]) as H40
    by (by vm_compute).
  split; [lia |]. split; [done |]. split; [done |]. rewrite H70, H40. split.
  - exists ("B", ["B"; "C"]). split; [left |]. cbn. split; [left | right; left].
  - intros (rc & Hrc & _ & HC). apply list_elem_of_singleton in Hrc as ->.
    cbn in HC. apply (bool_decide_pack _) in HC. by vm_compute in HC.
Qed.

(** C5: a candidate cluster that gained nothing beyond its representative
    is discarded without the representative entering the registry; and a
    path that the registry does not hold is gathered by any other
    representative whose comparison against it meets the threshold, once
    the loop of that representative has run to its end. *)
Theorem discarded_representative_stays_eligible
    compare threshold (tbl : DigestTable) (clusters : gset string)
    (yielded : list (string * list string)) p1 h1 x :
  (p1, (h1, x)) ∈ tbl →
  p1 ∉ clusters →
  (inner_loop compare threshold tbl p1 h1 clusters).2 = false →
  (inner_loop compare threshold tbl p1 h1 clusters).1.2 = [p1] →
  outer_body compare threshold tbl (clusters, yielded) (p1, (h1, x))
    = ((clusters, yielded), false)
  ∧ (p1 ∉ (outer_body compare threshold tbl (clusters, yielded)
             (p1, (h1, x))).1.1)
  ∧ ∀ (later : gset string) r hr s,
      p1 ∉ later → r ≠ p1 →
      compare hr h1 = Similarity s → threshold ≤ s →
      (inner_loop compare threshold tbl r hr later).2 = false →
      p1 ∈ (inner_loop compare threshold tbl r hr later).1.2
      ∧ p1 ∈ (inner_loop compare threshold tbl r hr later).1.1.
Proof.
  intros Hin Hreg Hret Hone.
  assert (outer_body compare threshold tbl (clusters, yielded) (p1, (h1, x))
          = ((clusters, yielded), false)) as Hout; [| split; [done | split]].
  - rewrite outer_body_unclaimed by done. f_equal.
    rewrite outer_body_gathered. rewrite bool_decide_eq_false_2 by done.
    rewrite inner_loop_returns, inner_loop_gathered in Hone by done.
    cbn [snd] in Hone. inversion Hone as [Hg]. cbv zeta. rewrite Hg. cbn.
    f_equal. set_solver.
  - by rewrite Hout.
  - intros later r hr s Hlater Hne Hcmp Hs Hret'.
    rewrite inner_loop_returns, inner_loop_gathered by done. cbn [fst snd].
    assert (similar compare threshold hr h1 = true) as Hsim.
    { unfold similar. rewrite Hcmp. apply Z.geb_le. lia. }
    destruct (gathered_complete compare threshold r hr tbl later p1 h1 x
                Hin (not_eq_sym Hne) Hsim) as [H | H]; [done |].
    split; [by right |].
    apply elem_of_union. right. by apply elem_of_list_to_set.
Qed.

Lemma discarded_representative_stays_eligible_witness :
  outer_body cmpD 70 tblD (∅, []) ("A", (Some "hA", Some "xA"))
  = ((∅, []), false)
  ∧ ("A" ∉ (outer_body cmpD 70 tblD (∅, [])
              ("A", (Some "hA", Some "xA"))).1.1)
  ∧ ∀ (later : gset string) r hr s,
      "A" ∉ later → r ≠ "A" →
      cmpD hr (Some "hA") = Similarity s → 70 ≤ s →
      (inner_loop cmpD 70 tblD r hr later).2 = false →
      "A" ∈ (inner_loop cmpD 70 tblD r hr later).1.2
      ∧ "A" ∈ (inner_loop cmpD 70 tblD r hr later).1.1.
Proof.
  apply (discarded_representative_stays_eligible cmpD 70 tblD ∅ []
           "A" (Some "hA") (Some "xA")).
  - left.
  - apply not_elem_of_empty.
  - by vm_compute.
  - by vm_compute.
Defined.

(** The representative that was discarded joins the next cluster. *)
Example run_tblD : cluster_pass cmpD 70 tblD = [("B", ["B"; "A"])].
Proof. by vm_compute. Qed.

(** The specification's pass skips a comparison that fails, and yields
    what it would yield had each failed comparison returned a score below
    the threshold. *)
Lemma spec_pass_skips_failures
    compare threshold (tbl : DigestTable) :
  (∀ p1 h1 st p2 h2 x,
     is_failure (compare h1 h2) →
     inner_body_spec compare threshold p1 h1 st (p2, (h2, x)) = st)
  ∧ cluster_pass_spec compare threshold tbl
    = cluster_pass_spec (failures_as_below compare threshold) threshold tbl.
Proof.
  split.
  - intros p1 h1 [clusters cluster] p2 h2 x Hfail. unfold inner_body_spec.
    destruct (_ && _); [| done].
    by destruct Hfail as [-> | ->].
  - assert (∀ h1 h2, similar compare threshold h1 h2
                     = similar (failures_as_below compare threshold)
                         threshold h1 h2) as Hsim.
    { intros h1 h2. unfold similar, failures_as_below.
      destruct (compare h1 h2); [done | |]; symmetry; rewrite Z.geb_leb;
        apply Z.leb_gt; lia. }
    assert (∀ p1 h1 items clusters,
              gathered compare threshold p1 h1 clusters items
              = gathered (failures_as_below compare threshold) threshold
                  p1 h1 clusters items) as Hg.
    { intros p1 h1 items.
      induction items as [| [p2 [h2 x]] rest IH]; intros clusters; [done |].
      cbn [gathered]. rewrite <- Hsim. by rewrite !IH. }
    rewrite !cluster_pass_emitted. generalize (∅ : gset string).
    generalize tbl at 2 4. intros items.
    induction items as [| [p1 [h1 x]] rest IH]; intros clusters; [done |].
    cbn [emitted]. rewrite <- Hg. cbv zeta. by rewrite !IH.
Qed.

(** C6: a comparison that fails does not count as below the threshold:
    the error leaves the generator. On a table where the first and third
    files are alike and the digest of the second makes the comparison
    fail, the code yields nothing and ends with the error, where the
    pass of the specification yields the pair of the first and third. *)
Theorem comparison_failure_ends_the_pass :
  is_failure (cmpF (Some "h1") (Some "bad"))
  ∧ inner_body cmpF 70 "a" (Some "h1") (∅, ["a"])
      ("b", (Some "bad", Some "x2")) = ((∅, ["a"]), true)
  ∧ cluster_pass cmpF 70 tblF = []
  ∧ cluster_pass_raises cmpF 70 tblF = true
  ∧ cluster_pass_spec cmpF 70 tblF = [("a", ["a"; "c"])].
Proof.
  split; [by left |]. repeat split; by vm_compute.
Qed.

(** Any comparison that the inner loop makes and that fails leaves it. *)
Lemma inner_body_failure compare threshold p1 h1 st p2 h2 x :
  p1 ≠ p2 → p2 ∉ st.1 → is_failure (compare h1 h2) →
  inner_body compare threshold p1 h1 st (p2, (h2, x)) = (st, true).
Proof.
  intros Hne Hreg Hfail. unfold inner_body.
  rewrite !bool_decide_eq_true_2 by done. cbn [andb].
  destruct st as [clusters cluster]. by destruct Hfail as [-> | ->].
Qed.

(** Where no comparison fails, the code and the specification agree. *)
Lemma cluster_pass_without_failures compare threshold tbl :
  (∀ a b, ¬ is_failure (compare a b)) →
  cluster_pass_raises compare threshold tbl = false
  ∧ cluster_pass compare threshold tbl = cluster_pass_spec compare threshold tbl.
Proof.
  intros Hok.
  assert (∀ items st,
            (cluster_run compare threshold tbl items st).2 = false) as Hrun.
  { intros items. unfold cluster_run.
    induction items as [| [p1 [h1 x]] rest IH]; intros [clusters yielded];
      [done |].
    cbn [for_each].
    pose proof (outer_body_raised compare threshold tbl clusters yielded
                  p1 h1 x) as Hr.
    assert ((inner_loop compare threshold tbl p1 h1 clusters).2 = false)
      as Hin.
    { apply inner_returns. intros q h y _ _.
      pose proof (Hok h1 h) as Hh. unfold is_failure in Hh.
      destruct (compare h1 h); [eauto | |]; exfalso; auto. }
    rewrite Hin in Hr.
    destruct (outer_body compare threshold tbl (clusters, yielded)
                (p1, (h1, x))) as [st' raised].
    cbn [snd] in Hr. destruct (bool_decide (p1 ∈ clusters)); subst raised;
      apply IH. }
  assert (cluster_pass_raises compare threshold tbl = false) as Hret
    by apply Hrun.
  split; [done | by apply cluster_pass_returns].
Qed.

(** ** Runs over a comparison that is a relation *)

Section runs.
Variable compare_call : hashval → hashval → cmp_result → Prop.
Variable threshold : Z.
Hypothesis compare_call_det :
  ∀ a b r1 r2, compare_call a b r1 → compare_call a b r2 → r1 = r2.

Lemma loop_det {St A : Type} (body : St → A → St * bool → Prop) :
  (∀ s a r1 r2, body s a r1 → body s a r2 → r1 = r2) →
  ∀ l s r1 r2, loop body s l r1 → loop body s l r2 → r1 = r2.
Proof.
  intros Hbody l. induction l as [| a l IH]; intros s r1 r2 H1 H2.
  - inversion H1; inversion H2; congruence.
  - inversion H1 as [| ? ? m1 ? ? Hb1 Hl1 | ? ? m1 ? Hb1]; subst;
      inversion H2 as [| ? ? m2 ? ? Hb2 Hl2 | ? ? m2 ? Hb2]; subst;
      pose proof (Hbody _ _ _ _ Hb1 Hb2) as Heq; inversion Heq; subst.
    + by eapply IH.
    + done.
Qed.

Lemma inner_step_det p1 h1 st item r1 r2 :
  inner_step compare_call threshold p1 h1 st item r1 →
  inner_step compare_call threshold p1 h1 st item r2 →
  r1 = r2.
Proof.
  intros H1 H2.
  inversion H1 as [? ? ? ? c1 Hne1 Hreg1 Hc1 | ? ? ? ? Hno1]; subst;
    inversion H2 as [? ? ? ? c2 Hne2 Hreg2 Hc2 | ? ? ? ? Hno2]; subst.
  - by rewrite (compare_call_det _ _ _ _ Hc1 Hc2).
  - exfalso. by apply Hno2.
  - exfalso. by apply Hno1.
  - done.
Qed.

Lemma outer_step_det tbl st item r1 r2 :
  outer_step compare_call threshold tbl st item r1 →
  outer_step compare_call threshold tbl st item r2 →
  r1 = r2.
Proof.
  intros H1 H2.
  inversion H1 as [? ? ? ? ? Hin1 | ? ? ? ? ? c1 l1 Hnin1 Hl1
                   | ? ? ? ? ? c1 l1 Hnin1 Hl1]; subst;
    inversion H2 as [? ? ? ? ? Hin2 | ? ? ? ? ? c2 l2 Hnin2 Hl2
                     | ? ? ? ? ? c2 l2 Hnin2 Hl2]; subst;
    try done;
    pose proof (loop_det _ (inner_step_det _ _) _ _ _ _ Hl1 Hl2) as Heq;
    by inversion Heq.
Qed.
End runs.

Section runs_of_a_function.
Variable compare_call : hashval → hashval → cmp_result → Prop.
Variable compare : hashval → hashval → cmp_result.
Variable threshold : Z.
Hypothesis compare_sound : ∀ a b, compare_call a b (compare a b).

Lemma loop_for_each {St A : Type} (body : St → A → St * bool → Prop)
    (f : St → A → St * bool) :
  (∀ s a, body s a (f s a)) → ∀ l s, loop body s l (for_each f s l).
Proof.
  intros Hbody l. induction l as [| a l IH]; intros s; cbn [for_each].
  - constructor.
  - pose proof (Hbody s a) as Ha. destruct (f s a) as [s' raised].
    destruct raised.
    + by apply loop_raise.
    + eapply loop_cons; [exact Ha | apply IH].
Qed.

Lemma inner_step_sound p1 h1 st item :
  inner_step compare_call threshold p1 h1 st item
    (inner_body compare threshold p1 h1 st item).
Proof.
  destruct item as [p2 [h2 x]]. unfold inner_body.
  destruct (bool_decide (p1 ≠ p2)) eqn:Hne;
    [destruct (bool_decide (p2 ∉ st.1)) eqn:Hreg |]; cbn [andb].
  - apply bool_decide_eq_true in Hne, Hreg. by constructor.
  - apply bool_decide_eq_false in Hreg. apply inner_step_skip. by intros [_ ?].
  - apply bool_decide_eq_false in Hne. apply inner_step_skip. by intros [? _].
Qed.

Lemma outer_step_sound tbl st item :
  outer_step compare_call threshold tbl st item
    (outer_body compare threshold tbl st item).
Proof.
  destruct st as [clusters yielded], item as [p1 [h1 x]]. unfold outer_body.
  destruct (bool_decide (p1 ∈ clusters)) eqn:Hin.
  - apply bool_decide_eq_true in Hin. by constructor.
  - apply bool_decide_eq_false in Hin.
    pose proof (loop_for_each _ _ (inner_step_sound p1 h1) tbl (clusters, [p1]))
      as Hloop.
    fold (inner_loop compare threshold tbl p1 h1 clusters) in Hloop.
    destruct (inner_loop compare threshold tbl p1 h1 clusters)
      as [[clusters' cluster] raised].
    destruct raised; [by eapply outer_step_raise |].
    replace (if (1 <? length cluster)%nat
             then ((clusters', yielded ++ [(p1, cluster)]), false)
             else ((clusters', yielded), false))
      with ((clusters',
             if (1 <? length cluster)%nat
             then yielded ++ [(p1, cluster)] else yielded), false)
      by (by destruct (1 <? length cluster)%nat).
    by apply outer_step_cluster.
Qed.

(** The function [cluster_pass], over a [compare] that picks outcomes of
    the calls, is a run of the pass. *)
Lemma cluster_pass_runs_sound tbl :
  cluster_pass_runs compare_call threshold tbl
    (cluster_pass compare threshold tbl).
Proof.
  unfold cluster_pass_runs, cluster_pass, cluster_run.
  pose proof (loop_for_each _ _ (outer_step_sound tbl) tbl (∅, [])) as Hloop.
  destruct (for_each (outer_body compare threshold tbl) (∅, []) tbl)
    as [[clusters yielded] raised].
  by exists clusters, raised.
Qed.
End runs_of_a_function.

Lemma cluster_pass_runs_graph compare threshold tbl :
  cluster_pass_runs (graph compare) threshold tbl
    (cluster_pass compare threshold tbl).
Proof. by apply cluster_pass_runs_sound. Qed.

(** Without that assumption two runs can differ. *)
Example runs_differ_when_calls_differ :
  cluster_pass_runs cmp_either 70 tblD []
  ∧ cluster_pass_runs cmp_either 70 tblD [("A", ["A"; "B"])].
Proof.
  split.
  - assert (cluster_pass (λ _ _, Similarity 0) 70 tblD = []) as <-
      by (by vm_compute).
    apply cluster_pass_runs_sound. intros a b. by right.
  - assert (cluster_pass (λ _ _, Similarity 100) 70 tblD
            = [("A", ["A"; "B"])]) as <- by (by vm_compute).
    apply cluster_pass_runs_sound. intros a b. by left.
Qed.

(** C7: when a call of the comparison on given digests always ends the
    same way, two runs of the pass on one table and one threshold yield
    the same pairs, in the same order, with the same lists. *)
Theorem clustering_is_deterministic compare_call threshold
    (tbl : DigestTable) (yielded1 yielded2 : list (string * list string)) :
  (∀ a b r1 r2, compare_call a b r1 → compare_call a b r2 → r1 = r2) →
  cluster_pass_runs compare_call threshold tbl yielded1 →
  cluster_pass_runs compare_call threshold tbl yielded2 →
  yielded1 = yielded2.
Proof.
  intros Hdet (clusters1 & raised1 & H1) (clusters2 & raised2 & H2).
  pose proof (loop_det _ (outer_step_det _ threshold Hdet tbl) _ _ _ _ H1 H2)
    as Heq.
  by inversion Heq.
Qed.

Lemma graph_det compare a b r1 r2 :
  graph compare a b r1 → graph compare a b r2 → r1 = r2.
Proof. unfold graph. congruence. Qed.

Lemma clustering_is_deterministic_witness :
  cluster_pass_runs (graph cmpA) 70 tblB (cluster_pass cmpA 70 tblB)
  ∧ cluster_pass cmpA 70 tblB = [("a", ["a"; "b"]); ("c", ["c"; "d"])].
Proof.
  pose proof (cluster_pass_runs_graph cmpA 70 tblB) as Hrun.
  split; [done |].
  apply (clustering_is_deterministic (graph cmpA) 70 tblB _ _
           (graph_det cmpA) Hrun).
  assert (cluster_pass cmpA 70 tblB = [("a", ["a"; "b"]); ("c", ["c"; "d"])])
    as <- by (by vm_compute).
  done.
Defined.

(** ** The scan *)

Section scan_facts.
Variable fs : filesystem.
Variable hs : hashers.
Variable min_size : Z.

Lemma bind_value {A B : Type} (m : M A) (k : A → M B) :
  (bind m k).1 = match m.1 with Ok a => (k a).1 | Raise e => Raise e end.
Proof. destruct m as [[a | e] tr]; cbn; [| done]. by destruct (k a). Qed.

Lemma bind_trace {A B : Type} (m : M A) (k : A → M B) :
  (bind m k).2 = match m.1 with Ok a => m.2 ++ (k a).2 | Raise e => m.2 end.
Proof. destruct m as [[a | e] tr]; cbn; [| done]. by destruct (k a). Qed.

Lemma calculate_hashes_value filepath :
  (calculate_hashes fs hs filepath).1 = Ok (hashes_of fs hs filepath).
Proof.
  unfold calculate_hashes, hashes_of, try_except, bind, emit, lift, ret.
  destruct (read fs filepath) as [c | e]; cbn.
  - destruct (ssdeep_hash hs c) as [s | e]; cbn.
    + destruct (xxh64_hexdigest hs c) as [x | e]; cbn; [done |].
      by destruct e.
    + by destruct e.
  - by destruct e.
Qed.

Lemma calculate_hashes_opens filepath p :
  Open p ∈ (calculate_hashes fs hs filepath).2 → p = filepath.
Proof.
  unfold calculate_hashes, try_except, bind, emit, lift, ret.
  intros H.
  assert (∀ tr, Open p ∈ Open filepath :: tr →
                Forall (λ ev, ∀ q, ev ≠ Open q) tr → p = filepath) as Hopen.
  { intros tr Hin Htr. apply elem_of_cons in Hin as [Heq | Hin].
    - by inversion Heq.
    - rewrite Forall_forall in Htr. by destruct (Htr _ Hin p). }
  destruct (read fs filepath) as [c | e]; cbn in H.
  - destruct (ssdeep_hash hs c) as [s | e]; cbn in H.
    + destruct (xxh64_hexdigest hs c) as [x | e]; cbn in H;
        [| destruct e; cbn in H]; apply (Hopen _ H);
        repeat constructor; done.
    + destruct e; cbn in H; apply (Hopen _ H); repeat constructor; done.
  - destruct e; cbn in H; apply (Hopen _ H); repeat constructor; done.
Qed.

Lemma hashing_fails_hashes_of filepath :
  hashing_fails fs hs filepath → hashes_of fs hs filepath = (None, None).
Proof.
  unfold hashes_of. intros [[e He] | (c & Hc & [[e He] | [e He]])].
  - by rewrite He.
  - by rewrite Hc, He.
  - rewrite Hc, He. by destruct (ssdeep_hash hs c).
Qed.

(** The value of one iteration over [files]. *)
Lemma scan_file_value root filename file_hashes :
  (scan_file fs hs min_size root filename file_hashes).1 =
  match getsize fs (join fs root filename) with
  | Raise e => Raise e
  | Ok size =>
      if size <? min_size then Ok file_hashes
      else
        let hashes := hashes_of fs hs (join fs root filename) in
        if truthy hashes.1 && truthy hashes.2
        then Ok (dict_set (join fs root filename) hashes file_hashes)
        else Ok file_hashes
  end.
Proof.
  unfold scan_file. rewrite bind_value. cbn [lift fst].
  destruct (getsize fs (join fs root filename)) as [size | e]; [| done].
  destruct (size <? min_size); [done |].
  rewrite bind_value, calculate_hashes_value. cbv zeta.
  destruct (hashes_of fs hs (join fs root filename)) as [s x]. cbn [fst snd].
  by destruct (truthy s && truthy x).
Qed.

Lemma scan_file_opens root filename file_hashes p :
  Open p ∈ (scan_file fs hs min_size root filename file_hashes).2 →
  p = join fs root filename
  ∧ ∃ size, getsize fs p = Ok size ∧ min_size ≤ size.
Proof.
  unfold scan_file. rewrite bind_trace. cbn [lift fst snd].
  destruct (getsize fs (join fs root filename)) as [size | e] eqn:Hsize;
    [| intros H; by apply elem_of_nil in H].
  rewrite app_nil_l. destruct (size <? min_size) eqn:Hlt.
  - cbn. intros H. apply list_elem_of_singleton in H. discriminate.
  - rewrite bind_trace, calculate_hashes_value. intros H.
    apply elem_of_app in H as [H | H].
    + apply calculate_hashes_opens in H as ->. split; [done |].
      exists size. split; [done |]. apply Z.ltb_ge in Hlt. lia.
    + exfalso. destruct (hashes_of fs hs (join fs root filename)) as [s x].
      destruct (truthy s && truthy x); cbn in H; by apply elem_of_nil in H.
Qed.

Lemma dict_set_Forall {V : Type} (P : string * V → Prop) k v d :
  Forall P d → P (k, v) → Forall P (dict_set k v d).
Proof.
  intros Hd Hkv. induction Hd as [| [k' v'] d Hk' Hd IH]; cbn [dict_set].
  - by constructor.
  - destruct (decide (k' = k)); by constructor.
Qed.

Lemma dict_set_keys {V : Type} k (v : V) d q :
  q ∈ keys (dict_set k v d) ↔ q = k ∨ q ∈ keys d.
Proof.
  unfold keys. induction d as [| [k' v'] d IH]; cbn [dict_set].
  - cbn. rewrite list_elem_of_singleton. set_solver.
  - destruct (decide (k' = k)) as [-> | Hne]; cbn [fmap list_fmap fst].
    + rewrite !elem_of_cons. naive_solver.
    + rewrite !elem_of_cons, IH. naive_solver.
Qed.

Lemma dict_set_NoDup {V : Type} k (v : V) d :
  NoDup (keys d) → NoDup (keys (dict_set k v d)).
Proof.
  induction d as [| [k' v'] d IH]; cbn [dict_set]; intros Hnd.
  - unfold keys. cbn. apply NoDup_singleton.
  - destruct (decide (k' = k)) as [-> | Hne]; [done |].
    unfold keys in *. cbn [fmap list_fmap fst] in *.
    apply NoDup_cons in Hnd as [Hk' Hnd]. apply NoDup_cons. split; [| auto].
    intros Hin. apply (dict_set_keys k v d k') in Hin as [? | ?]; done.
Qed.

Lemma scan_file_ok root filename tbl tbl' :
  table_ok fs hs min_size tbl →
  (scan_file fs hs min_size root filename tbl).1 = Ok tbl' →
  table_ok fs hs min_size tbl'.
Proof.
  intros [Hall Hnd]. rewrite scan_file_value.
  destruct (getsize fs (join fs root filename)) as [size | e] eqn:Hsize;
    [| done].
  destruct (size <? min_size) eqn:Hlt; [by intros [= <-] |].
  cbv zeta.
  destruct (truthy (hashes_of fs hs (join fs root filename)).1) eqn:H1;
    [destruct (truthy (hashes_of fs hs (join fs root filename)).2) eqn:H2 |];
    cbn [andb]; intros [= <-]; try done.
  split; [| by apply dict_set_NoDup].
  apply dict_set_Forall; [done |].
  repeat split; try done. exists size. split; [done |].
  apply Z.ltb_ge in Hlt. lia.
Qed.

Lemma scan_files_ok root files : ∀ tbl tbl',
  table_ok fs hs min_size tbl →
  (scan_files fs hs min_size root files tbl).1 = Ok tbl' →
  table_ok fs hs min_size tbl'.
Proof.
  induction files as [| filename rest IH]; intros tbl tbl' Hok; cbn [scan_files].
  - by intros [= <-].
  - rewrite bind_value.
    destruct (scan_file fs hs min_size root filename tbl).1 as [tbl1 | e] eqn:H1;
      [| done].
    apply IH. by eapply scan_file_ok.
Qed.

Lemma scan_walk_ok triples : ∀ tbl tbl',
  table_ok fs hs min_size tbl →
  (scan_walk fs hs min_size triples tbl).1 = Ok tbl' →
  table_ok fs hs min_size tbl'.
Proof.
  induction triples as [| [root files] rest IH]; intros tbl tbl' Hok;
    cbn [scan_walk].
  - by intros [= <-].
  - rewrite bind_value.
    destruct (scan_files fs hs min_size root files tbl).1 as [tbl1 | e] eqn:H1;
      [| done].
    apply IH. by eapply scan_files_ok.
Qed.

Lemma scan_ok directory tbl :
  (scan fs hs min_size directory).1 = Ok tbl → table_ok fs hs min_size tbl.
Proof.
  unfold scan. rewrite bind_value.
  destruct (scan_walk fs hs min_size (walk fs directory).1 []).1
    as [tbl1 | e] eqn:H1; [| done].
  destruct (walk fs directory).2; [done |]. intros [= <-].
  eapply scan_walk_ok; [| done]. split; [constructor |].
  unfold keys. cbn. constructor.
Qed.

Lemma scan_files_opens root files p : ∀ tbl,
  Open p ∈ (scan_files fs hs min_size root files tbl).2 → big_enough fs min_size p.
Proof.
  induction files as [| filename rest IH]; intros tbl; cbn [scan_files].
  - cbn. intros H. by apply elem_of_nil in H.
  - rewrite bind_trace.
    destruct (scan_file fs hs min_size root filename tbl).1 as [tbl1 | e] eqn:H1.
    + intros H. apply elem_of_app in H as [H | H]; [| by eapply IH].
      by apply scan_file_opens in H as [_ ?].
    + intros H. by apply scan_file_opens in H as [_ ?].
Qed.

Lemma scan_walk_opens triples p : ∀ tbl,
  Open p ∈ (scan_walk fs hs min_size triples tbl).2 → big_enough fs min_size p.
Proof.
  induction triples as [| [root files] rest IH]; intros tbl; cbn [scan_walk].
  - cbn. intros H. by apply elem_of_nil in H.
  - rewrite bind_trace.
    destruct (scan_files fs hs min_size root files tbl).1 as [tbl1 | e] eqn:H1.
    + intros H. apply elem_of_app in H as [H | H]; [| by eapply IH].
      by eapply scan_files_opens.
    + intros H. by eapply scan_files_opens.
Qed.

Lemma scan_opens directory p :
  Open p ∈ (scan fs hs min_size directory).2 → big_enough fs min_size p.
Proof.
  unfold scan. rewrite bind_trace.
  destruct (scan_walk fs hs min_size (walk fs directory).1 []).1
    as [tbl1 | e] eqn:H1.
  - intros H. apply elem_of_app in H as [H | H]; [by eapply scan_walk_opens |].
    destruct (walk fs directory).2; cbn in H; by apply elem_of_nil in H.
  - by apply scan_walk_opens.
Qed.
End scan_facts.

Section scan_without.
Variable fs : filesystem.
Variable hs : hashers.
Variable min_size : Z.
Variable p : string.
Hypothesis size_ok : ∃ size, getsize fs p = Ok size.
Hypothesis hashing_fails_p : hashing_fails fs hs p.

Lemma scan_file_skips_failed root filename tbl :
  join fs root filename = p →
  (scan_file fs hs min_size root filename tbl).1 = Ok tbl.
Proof.
  intros Hp. rewrite scan_file_value, Hp. destruct size_ok as [size ->].
  destruct (size <? min_size); [done |].
  by rewrite (hashing_fails_hashes_of fs hs p hashing_fails_p).
Qed.

Lemma scan_files_without root files : ∀ tbl,
  (scan_files (without_file fs p) hs min_size root
     (filter (λ filename, join fs root filename ≠ p) files) tbl).1
  = (scan_files fs hs min_size root files tbl).1.
Proof.
  induction files as [| filename rest IH]; intros tbl; [done |].
  rewrite filter_cons. cbn [scan_files]. rewrite bind_value.
  destruct (decide (join fs root filename ≠ p)) as [Hne | Heq].
  - cbn [scan_files]. rewrite bind_value.
    change (scan_file (without_file fs p) hs min_size root filename tbl)
      with (scan_file fs hs min_size root filename tbl).
    destruct (scan_file fs hs min_size root filename tbl).1; [apply IH | done].
  - apply dec_stable in Heq.
    rewrite (scan_file_skips_failed root filename tbl Heq). apply IH.
Qed.

Lemma scan_walk_without triples : ∀ tbl,
  (scan_walk (without_file fs p) hs min_size
     ((λ triple : string * list string,
         (triple.1,
          filter (λ filename, join fs triple.1 filename ≠ p) triple.2))
        <$> triples) tbl).1
  = (scan_walk fs hs min_size triples tbl).1.
Proof.
  induction triples as [| [root files] rest IH]; intros tbl; [done |].
  cbn [fmap list_fmap scan_walk fst snd]. rewrite !bind_value.
  rewrite scan_files_without.
  destruct (scan_files fs hs min_size root files tbl).1; [apply IH | done].
Qed.

Lemma scan_without directory :
  (scan (without_file fs p) hs min_size directory).1
  = (scan fs hs min_size directory).1.
Proof.
  unfold scan. rewrite !bind_value. cbn [without_file walk fst snd].
  rewrite scan_walk_without.
  by destruct (scan_walk fs hs min_size (walk fs directory).1 []).1.
Qed.
End scan_without.

Lemma find_similar_files_value fs hs compare directory threshold min_size :
  (find_similar_files fs hs compare directory threshold min_size).1 =
  if negb (isdir fs directory) then []
  else
    match (scan fs hs min_size directory).1 with
    | Ok file_hashes => cluster_pass compare threshold file_hashes
    | Raise _ => []
    end.
Proof.
  unfold find_similar_files. destruct (negb (isdir fs directory)); [done |].
  by destruct (scan fs hs min_size directory) as [[tbl | e] tr].
Qed.

Lemma find_similar_files_opens fs hs compare directory threshold min_size p :
  Open p ∈ (find_similar_files fs hs compare directory threshold min_size).2 →
  big_enough fs min_size p.
Proof.
  unfold find_similar_files. destruct (negb (isdir fs directory)).
  - cbn. intros H. apply list_elem_of_singleton in H. discriminate.
  - pose proof (scan_opens fs hs min_size directory p) as Hopen.
    destruct (scan fs hs min_size directory) as [[tbl | e] tr]; cbn [snd] in *;
      [done |].
    intros H. apply elem_of_app in H as [H | H]; [auto |].
    apply list_elem_of_singleton in H. by destruct (is_OSError e).
Qed.

Lemma cluster_pass_representative compare threshold tbl r c :
  (r, c) ∈ cluster_pass_spec compare threshold tbl → r ∈ c.
Proof.
  intros Hrc. rewrite cluster_pass_emitted in Hrc.
  pose proof (emitted_shape compare threshold tbl tbl ∅) as Hall.
  rewrite Forall_forall in Hall.
  destruct (Hall _ Hrc) as (ms & Hc & _). cbn [fst snd] in Hc. subst c. left.
Qed.

(** C3, as the code has it: a file whose size check succeeds and whose
    reading or hashing raises never enters the table, and the scan builds
    the table, and the generator yields the pairs, that it would without
    that file in the directory. *)
Theorem unreadable_file_is_skipped fs hs compare directory threshold min_size
    (p : string) :
  (∃ size, getsize fs p = Ok size) →
  hashing_fails fs hs p →
  (∀ tbl, (scan fs hs min_size directory).1 = Ok tbl → p ∉ keys tbl)
  ∧ (scan fs hs min_size directory).1
    = (scan (without_file fs p) hs min_size directory).1
  ∧ (find_similar_files fs hs compare directory threshold min_size).1
    = (find_similar_files (without_file fs p) hs compare
         directory threshold min_size).1.
Proof.
  intros Hsize Hfail.
  pose proof (scan_without fs hs min_size p Hsize Hfail directory) as Hscan.
  split; [| split].
  - intros tbl Htbl Hin. apply scan_ok in Htbl as [Hall _].
    apply elem_of_keys in Hin as [v Hin].
    rewrite Forall_forall in Hall. destruct (Hall _ Hin) as (Hv & Ht & _).
    cbn [fst snd] in *.
    rewrite (hashing_fails_hashes_of fs hs p Hfail) in Hv. by subst v.
  - done.
  - rewrite !find_similar_files_value. by rewrite Hscan.
Qed.

Lemma unreadable_file_is_skipped_witness :
  (find_similar_files (sample_fs ["a"; "locked"; "b"]) sample_hs cmpA
     "d" 70 1024).1
  = [("d/a", ["d/a"; "d/b"])]
  ∧ (find_similar_files (sample_fs ["a"; "locked"; "b"]) sample_hs cmpA
       "d" 70 1024).1
    = (find_similar_files
         (without_file (sample_fs ["a"; "locked"; "b"]) "d/locked")
         sample_hs cmpA "d" 70 1024).1.
Proof.
  split; [by vm_compute |].
  apply (unreadable_file_is_skipped (sample_fs ["a"; "locked"; "b"])
           sample_hs cmpA "d" 70 1024 "d/locked").
  - by exists 2048.
  - left. by exists PermissionError.
Defined.

(** C3, as stated, fails for the size check: when
    [os.path.getsize] raises for one file the handler around the
    traversal ends the generator, and the two files that would have been
    clustered are not reported. *)
Lemma size_check_failure_ends_scan :
  file_fails (sample_fs ["a"; "gone"; "b"]) sample_hs "d/gone"
  ∧ (scan (sample_fs ["a"; "gone"; "b"]) sample_hs 1024 "d").1
    = Raise FileNotFoundError
  ∧ (find_similar_files (sample_fs ["a"; "gone"; "b"]) sample_hs cmpA
       "d" 70 1024).1 = []
  ∧ (find_similar_files (sample_fs ["a"; "b"]) sample_hs cmpA
       "d" 70 1024).1 = [("d/a", ["d/a"; "d/b"])].
Proof.
  split; [| split; [| split]]; try by vm_compute.
  left. by exists FileNotFoundError.
Qed.

(** C8: every entry of the table that the scan builds holds a fuzzy
    digest and a strong digest that are not [None], and a file whose
    fuzzy digest is [None] is no key of the table. *)
Theorem table_digests_not_none fs hs min_size directory (tbl : DigestTable) :
  (scan fs hs min_size directory).1 = Ok tbl →
  Forall (λ entry : string * (hashval * hashval),
            is_Some entry.2.1 ∧ is_Some entry.2.2) tbl
  ∧ ∀ p, (hashes_of fs hs p).1 = None → p ∉ keys tbl.
Proof.
  intros Htbl. apply scan_ok in Htbl as [Hall _]. split.
  - eapply Forall_impl; [exact Hall |].
    intros [k [s x]] (_ & Hs & Hx & _). cbn [fst snd] in *.
    destruct s, x; done.
  - intros p Hnone Hin. apply elem_of_keys in Hin as [v Hin].
    rewrite Forall_forall in Hall. destruct (Hall _ Hin) as (Hv & Ht & _).
    cbn [fst snd] in *. subst v. by rewrite Hnone in Ht.
Qed.

Lemma table_digests_not_none_witness :
  Forall (λ entry : string * (hashval * hashval),
            is_Some entry.2.1 ∧ is_Some entry.2.2)
    [("d/a", (Some "h1", Some "ef46db3751d8e999"));
     ("d/b", (Some "h1", Some "ef46db3751d8e999"))]
  ∧ ∀ p, (hashes_of (sample_fs ["a"; "locked"; "b"]) sample_hs p).1 = None →
         p ∉ keys [("d/a", (Some "h1", Some "ef46db3751d8e999"));
                   ("d/b", (Some "h1", Some "ef46db3751d8e999"))].
Proof.
  apply (table_digests_not_none (sample_fs ["a"; "locked"; "b"]) sample_hs
           1024 "d").
  by vm_compute.
Defined.

(** C9: a file smaller than [min_size] is not opened, is no key of the
    table, and stands in no yielded pair. *)
Theorem small_files_are_skipped fs hs compare directory threshold min_size
    (p : string) (size : Z) :
  getsize fs p = Ok size →
  size < min_size →
  (Open p ∉ (find_similar_files fs hs compare directory threshold min_size).2)
  ∧ (∀ tbl, (scan fs hs min_size directory).1 = Ok tbl → p ∉ keys tbl)
  ∧ ∀ r c,
      (r, c) ∈ (find_similar_files fs hs compare directory threshold min_size).1 →
      p ≠ r ∧ p ∉ c.
Proof.
  intros Hsize Hlt.
  assert (¬ big_enough fs min_size p) as Hsmall.
  { intros (size' & Hsize' & Hle). rewrite Hsize in Hsize'.
    inversion Hsize'. lia. }
  assert (∀ tbl, (scan fs hs min_size directory).1 = Ok tbl → p ∉ keys tbl)
    as Htable.
  { intros tbl Htbl Hin. apply scan_ok in Htbl as [Hall _].
    apply elem_of_keys in Hin as [v Hin].
    rewrite Forall_forall in Hall. destruct (Hall _ Hin) as (_ & _ & _ & Hbig).
    by apply Hsmall. }
  split; [| split; [done |]].
  - intros Hopen. by apply find_similar_files_opens in Hopen.
  - intros r c. rewrite find_similar_files_value.
    destruct (negb (isdir fs directory));
      [intros H; by apply elem_of_nil in H |].
    destruct (scan fs hs min_size directory).1 as [tbl | e] eqn:Hscan;
      [| intros H; by apply elem_of_nil in H].
    intros Hrc. apply cluster_pass_elem in Hrc.
    assert (p ∉ c) as Hc.
    { intros Hin. apply (Htable tbl eq_refl).
      by eapply cluster_pass_keys. }
    split; [| done]. intros ->. apply Hc.
    by eapply cluster_pass_representative.
Qed.

Lemma small_files_are_skipped_witness :
  (find_similar_files (sample_fs ["a"; "tiny"; "b"]) sample_hs cmpA
     "d" 70 1024).1 = [("d/a", ["d/a"; "d/b"])]
  ∧ Open "d/tiny"
      ∉ (find_similar_files (sample_fs ["a"; "tiny"; "b"]) sample_hs cmpA
           "d" 70 1024).2.
Proof.
  split; [by vm_compute |].
  apply (small_files_are_skipped (sample_fs ["a"; "tiny"; "b"]) sample_hs cmpA
           "d" 70 1024 "d/tiny" 10).
  - by vm_compute.
  - lia.
Defined.

(** Scenario B: one file of 10 bytes and [min_size = 1024]. *)
Example scenario_B :
  find_similar_files (sample_fs ["tiny"]) sample_hs cmpA "d" 70 1024
  = ([], [LogSkipSmall "d/tiny"]).
Proof. by vm_compute. Qed.

(** * Further properties *)

(** ** The scan, in closed form *)

Section scan_closed.
Variable fs : filesystem.
Variable hs : hashers.
Variable min_size : Z.

Lemma calculate_hashes_pair p :
  calculate_hashes fs hs p
  = (Ok (hashes_of fs hs p), (calculate_hashes fs hs p).2).
Proof.
  rewrite <- calculate_hashes_value. by destruct (calculate_hashes fs hs p).
Qed.

Lemma scan_file_returns root filename tbl size :
  getsize fs (join fs root filename) = Ok size →
  scan_file fs hs min_size root filename tbl
  = (Ok (add_file fs hs min_size tbl (join fs root filename)),
     file_events fs hs min_size (join fs root filename)).
Proof.
  intros Hsize. unfold scan_file, add_file, eligible, file_events.
  rewrite Hsize. cbn [lift bind].
  destruct (size <? min_size) eqn:Hlt; cbn [negb andb]; [done |].
  rewrite calculate_hashes_pair.
  destruct (hashes_of fs hs (join fs root filename)) as [s1 x1]. cbn.
  destruct (truthy s1 && truthy x1); cbn; by rewrite app_nil_r.
Qed.

Lemma scan_files_returns root files : ∀ tbl,
  (∀ filename, filename ∈ files →
     ∃ size, getsize fs (join fs root filename) = Ok size) →
  scan_files fs hs min_size root files tbl
  = (Ok (foldl (add_file fs hs min_size) tbl (join fs root <$> files)),
     mjoin (file_events fs hs min_size <$> (join fs root <$> files))).
Proof.
  induction files as [| filename rest IH]; intros tbl Hsizes; [done |].
  cbn [scan_files fmap list_fmap foldl mjoin list_join].
  destruct (Hsizes filename) as [size Hsize]; [left |].
  rewrite (scan_file_returns _ _ _ _ Hsize). cbn [bind].
  rewrite IH; [done |]. intros fn Hfn. apply Hsizes. by right.
Qed.

Lemma scan_walk_returns triples : ∀ tbl,
  (∀ p, p ∈ mjoin ((λ triple : string * list string,
                      join fs triple.1 <$> triple.2) <$> triples) →
        ∃ size, getsize fs p = Ok size) →
  scan_walk fs hs min_size triples tbl
  = (Ok (foldl (add_file fs hs min_size) tbl
           (mjoin ((λ triple : string * list string,
                      join fs triple.1 <$> triple.2) <$> triples))),
     mjoin (file_events fs hs min_size
              <$> mjoin ((λ triple : string * list string,
                            join fs triple.1 <$> triple.2) <$> triples))).
Proof.
  induction triples as [| [root files] rest IH]; intros tbl Hsizes; [done |].
  cbn [scan_walk fmap list_fmap mjoin list_join fst snd] in *.
  rewrite scan_files_returns.
  - cbn [bind]. rewrite IH.
    + by rewrite foldl_app, fmap_app, join_app.
    + intros p Hp. apply Hsizes, elem_of_app. by right.
  - intros fn Hfn. apply Hsizes, elem_of_app. left.
    apply list_elem_of_fmap. by exists fn.
Qed.

Lemma scan_returns directory :
  sizes_return fs directory →
  scan fs hs min_size directory
  = (Ok (foldl (add_file fs hs min_size) [] (walked fs directory)),
     mjoin (file_events fs hs min_size <$> walked fs directory)).
Proof.
  intros [Hsizes Hwalk]. unfold scan, walked in *.
  rewrite scan_walk_returns by done. cbn [bind]. rewrite Hwalk. cbn.
  by rewrite app_nil_r.
Qed.

Lemma dict_set_fresh {V : Type} k (v : V) d :
  k ∉ keys d → dict_set k v d = d ++ [(k, v)].
Proof.
  unfold keys. induction d as [| [k' v'] d IH]; intros Hk; [done |].
  cbn [dict_set fmap list_fmap fst] in *. apply not_elem_of_cons in Hk as [Hne Hk].
  rewrite decide_False by done. by rewrite IH.
Qed.

Lemma foldl_add_file paths : ∀ tbl,
  NoDup (keys tbl ++ paths) →
  foldl (add_file fs hs min_size) tbl paths
  = tbl ++ ((λ p, (p, hashes_of fs hs p))
              <$> filter (λ p, eligible fs hs min_size p = true) paths).
Proof.
  induction paths as [| p rest IH]; intros tbl Hnd.
  - cbn. by rewrite app_nil_r.
  - cbn [foldl]. rewrite filter_cons. unfold add_file at 2.
    assert (p ∉ keys tbl) as Hp.
    { apply NoDup_app in Hnd as (_ & Hdis & _). intros Hin.
      apply (Hdis p Hin). left. }
    destruct (eligible fs hs min_size p) eqn:Hel.
    + rewrite decide_True by done. rewrite dict_set_fresh by done.
      rewrite IH.
      * by rewrite <- app_assoc.
      * unfold keys. rewrite fmap_app. cbn. rewrite <- app_assoc. done.
    + rewrite decide_False by done. apply IH.
      apply NoDup_app in Hnd as (Hnd1 & Hdis & Hnd2).
      apply NoDup_cons in Hnd2 as [_ Hnd2].
      apply NoDup_app. split; [done |]. split; [| done].
      intros q Hq Hq'. apply (Hdis q Hq). by right.
Qed.
End scan_closed.

(** ** When a scan is abandoned *)

Section scan_raises.
Variable fs : filesystem.
Variable hs : hashers.
Variable min_size : Z.

Lemma scan_file_cases root filename tbl :
  (∃ tbl' size, (scan_file fs hs min_size root filename tbl).1 = Ok tbl'
                ∧ getsize fs (join fs root filename) = Ok size)
  ∨ (∃ e, (scan_file fs hs min_size root filename tbl).1 = Raise e
          ∧ getsize fs (join fs root filename) = Raise e).
Proof.
  destruct (getsize fs (join fs root filename)) as [size | e] eqn:Hsize.
  - left. rewrite (scan_file_returns fs hs min_size _ _ _ _ Hsize). eauto.
  - right. exists e. split; [| done].
    unfold scan_file. rewrite bind_value. cbn [lift fst]. by rewrite Hsize.
Qed.

Lemma scan_files_raises root files : ∀ tbl,
  (∃ e, (scan_files fs hs min_size root files tbl).1 = Raise e)
  ↔ ∃ filename, filename ∈ files ∧ raises (getsize fs (join fs root filename)).
Proof.
  induction files as [| filename rest IH]; intros tbl.
  - cbn. split; [by intros [e ?] |]. intros (fn & Hfn & _).
    by apply elem_of_nil in Hfn.
  - cbn [scan_files]. rewrite bind_value.
    destruct (scan_file_cases root filename tbl)
      as [(tbl' & size & -> & Hsize) | (e & -> & Hsize)].
    + rewrite IH. split.
      * intros (fn & Hfn & Hr). exists fn. split; [by right | done].
      * intros (fn & Hfn & Hr). apply elem_of_cons in Hfn as [-> | Hfn];
          [| by exists fn].
        destruct Hr as [e He]. congruence.
    + split; [| by eauto]. intros _. exists filename. split; [left |].
      by exists e.
Qed.

Lemma scan_walk_raises triples : ∀ tbl,
  (∃ e, (scan_walk fs hs min_size triples tbl).1 = Raise e)
  ↔ ∃ p, p ∈ mjoin ((λ triple : string * list string,
                       join fs triple.1 <$> triple.2) <$> triples)
         ∧ raises (getsize fs p).
Proof.
  induction triples as [| [root files] rest IH]; intros tbl.
  - cbn. split; [by intros [e ?] |]. intros (q & Hq & _).
    by apply elem_of_nil in Hq.
  - cbn [scan_walk fmap list_fmap mjoin list_join fst snd].
    rewrite bind_value.
    destruct (scan_files fs hs min_size root files tbl).1 as [tbl' | e] eqn:Hf.
    + rewrite IH. split.
      * intros (q & Hq & Hr). exists q. split; [| done].
        apply elem_of_app. by right.
      * intros (q & Hq & Hr). apply elem_of_app in Hq as [Hq | Hq];
          [| by exists q].
        exfalso. apply list_elem_of_fmap in Hq as (fn & -> & Hfn).
        assert (∃ e, (scan_files fs hs min_size root files tbl).1 = Raise e)
          as [e He]; [| congruence].
        apply scan_files_raises. by exists fn.
    + split; [| by eauto]. intros _.
      destruct (proj1 (scan_files_raises root files tbl)) as (fn & Hfn & Hr);
        [by eauto |].
      exists (join fs root fn). split; [| done].
      apply elem_of_app. left. apply list_elem_of_fmap. by exists fn.
Qed.

Lemma scan_raises_iff directory :
  (∃ e, (scan fs hs min_size directory).1 = Raise e)
  ↔ (∃ p, p ∈ walked fs directory ∧ raises (getsize fs p))
    ∨ is_Some (walk fs directory).2.
Proof.
  unfold scan, walked. rewrite bind_value.
  destruct (scan_walk fs hs min_size (walk fs directory).1 []).1
    as [tbl | e] eqn:Hw.
  - assert (¬ ∃ p, p ∈ mjoin ((λ triple : string * list string,
                                 join fs triple.1 <$> triple.2)
                                <$> (walk fs directory).1)
                   ∧ raises (getsize fs p)) as Hno.
    { intros H. apply (scan_walk_raises _ []) in H as [e He]. congruence. }
    destruct (walk fs directory).2 as [e |]; cbn.
    + split; [intros _; right; eauto | by eauto].
    + split; [by intros [e ?] |]. intros [H | [e H]]; [by apply Hno in H | done].
  - split; [| by eauto]. intros _. left.
    apply (scan_walk_raises _ []). eauto.
Qed.

Lemma scan_Ok_sizes_return directory tbl :
  (scan fs hs min_size directory).1 = Ok tbl → sizes_return fs directory.
Proof.
  intros Hscan. split.
  - intros p Hp. destruct (getsize fs p) as [size | e] eqn:Hsize; [eauto |].
    assert (∃ e, (scan fs hs min_size directory).1 = Raise e) as [e' He'];
      [| congruence].
    apply scan_raises_iff. left. exists p. split; [done |]. by exists e.
  - destruct (walk fs directory).2 as [e |] eqn:Hwalk; [| done].
    assert (∃ e, (scan fs hs min_size directory).1 = Raise e) as [e' He'];
      [| congruence].
    apply scan_raises_iff. right. rewrite Hwalk. eauto.
Qed.

Lemma foldl_add_file_keys paths p : ∀ tbl,
  p ∈ keys (foldl (add_file fs hs min_size) tbl paths)
  ↔ p ∈ keys tbl ∨ (p ∈ paths ∧ eligible fs hs min_size p = true).
Proof.
  induction paths as [| q rest IH]; intros tbl; cbn [foldl].
  - split; [by left |]. intros [? | [H _]]; [done | by apply elem_of_nil in H].
  - rewrite IH. unfold add_file. rewrite elem_of_cons.
    destruct (eligible fs hs min_size q) eqn:Hq.
    + rewrite dict_set_keys. split.
      * intros [[-> | H] | [H1 H2]]; tauto.
      * intros [H | [[-> | H1] H2]]; tauto.
    + split; [tauto |]. intros [H | [[-> | H1] H2]]; [tauto | congruence | tauto].
Qed.

Lemma scan_keys directory tbl p :
  (scan fs hs min_size directory).1 = Ok tbl →
  p ∈ keys tbl ↔ p ∈ walked fs directory ∧ eligible fs hs min_size p = true.
Proof.
  intros Hscan. pose proof (scan_Ok_sizes_return _ _ Hscan) as Hsizes.
  rewrite (scan_returns fs hs min_size directory Hsizes) in Hscan.
  cbn [fst] in Hscan. inversion Hscan as [Htbl].
  rewrite foldl_add_file_keys. unfold keys at 1. cbn.
  split; [intros [H | H]; [by apply elem_of_nil in H | done] | by right].
Qed.
End scan_raises.

Lemma sample_sizes_return :
  sizes_return (sample_fs ["a"; "tiny"; "locked"; "b"]) "d".
Proof.
  split; [| done]. apply Forall_forall.
  repeat constructor; eexists; by vm_compute.
Qed.

Lemma sample_walked_NoDup :
  NoDup (walked (sample_fs ["a"; "tiny"; "locked"; "b"]) "d").
Proof. apply (bool_decide_unpack _). by vm_compute. Qed.

(** X1: when every size check of the walk returns and the walked paths
    are distinct, the scan returns the table that lists, in walk order,
    the walked files that pass the size check and have two truthy hashes,
    each with its hashes; its trace is, file by file, the skip message of
    a small file or the events of [calculate_hashes]. *)
Theorem scan_builds_table_in_walk_order fs hs min_size directory :
  sizes_return fs directory →
  NoDup (walked fs directory) →
  scan fs hs min_size directory
  = (Ok ((λ p, (p, hashes_of fs hs p))
           <$> filter (λ p, eligible fs hs min_size p = true)
                 (walked fs directory)),
     mjoin (file_events fs hs min_size <$> walked fs directory)).
Proof.
  intros Hsizes Hnd. rewrite (scan_returns fs hs min_size directory Hsizes).
  by rewrite (foldl_add_file fs hs min_size (walked fs directory) []).
Qed.

Lemma scan_builds_table_in_walk_order_witness :
  scan (sample_fs ["a"; "tiny"; "locked"; "b"]) sample_hs 1024 "d"
  = (Ok [("d/a", (Some "h1", Some "ef46db3751d8e999"));
         ("d/b", (Some "h1", Some "ef46db3751d8e999"))],
     [Open "d/a"; LogSkipSmall "d/tiny";
      Open "d/locked"; LogPermission "d/locked"; Open "d/b"]).
Proof.
  rewrite (scan_builds_table_in_walk_order
             (sample_fs ["a"; "tiny"; "locked"; "b"]) sample_hs 1024 "d"
             sample_sizes_return sample_walked_NoDup).
  by vm_compute.
Defined.

(** X2: the scan is abandoned exactly when the size check of some walked
    file raises or the walk itself raises; the generator then yields
    nothing. *)
Theorem scan_is_abandoned_iff fs hs compare directory threshold min_size :
  ((∃ e, (scan fs hs min_size directory).1 = Raise e)
   ↔ (∃ p, p ∈ walked fs directory ∧ raises (getsize fs p))
     ∨ is_Some (walk fs directory).2)
  ∧ ((∃ e, (scan fs hs min_size directory).1 = Raise e) →
     (find_similar_files fs hs compare directory threshold min_size).1 = []).
Proof.
  split; [apply scan_raises_iff |]. intros [e He].
  rewrite find_similar_files_value, He. by destruct (negb _).
Qed.

Lemma scan_is_abandoned_iff_witness :
  (find_similar_files (sample_fs ["a"; "gone"; "b"]) sample_hs cmpA
     "d" 70 1024).1 = [].
Proof.
  apply (proj2 (scan_is_abandoned_iff (sample_fs ["a"; "gone"; "b"])
                  sample_hs cmpA "d" 70 1024)).
  exists FileNotFoundError. by vm_compute.
Defined.

(** X3: the keys of the table a scan returns are exactly the walked
    files that pass the size check and have two truthy hashes, and each
    key is mapped to the hashes of its own file. *)
Theorem table_holds_the_eligible_files fs hs min_size directory
    (tbl : DigestTable) :
  (scan fs hs min_size directory).1 = Ok tbl →
  (∀ p, p ∈ keys tbl
        ↔ p ∈ walked fs directory ∧ eligible fs hs min_size p = true)
  ∧ ∀ p v, (p, v) ∈ tbl → v = hashes_of fs hs p.
Proof.
  intros Hscan. split.
  - intros p. by apply scan_keys.
  - intros p v Hin. apply scan_ok in Hscan as [Hall _].
    rewrite Forall_forall in Hall. by destruct (Hall _ Hin) as (Hv & _).
Qed.

Lemma table_holds_the_eligible_files_witness :
  (∀ p, p ∈ keys [("d/a", (Some "h1", Some "ef46db3751d8e999"));
                  ("d/b", (Some "h1", Some "ef46db3751d8e999"))]
        ↔ p ∈ walked (sample_fs ["a"; "tiny"; "locked"; "b"]) "d"
          ∧ eligible (sample_fs ["a"; "tiny"; "locked"; "b"]) sample_hs
              1024 p = true)
  ∧ ∀ p v, (p, v) ∈ [("d/a", (Some "h1", Some "ef46db3751d8e999"));
                     ("d/b", (Some "h1", Some "ef46db3751d8e999"))] →
           v = hashes_of (sample_fs ["a"; "tiny"; "locked"; "b"]) sample_hs p.
Proof.
  apply (table_holds_the_eligible_files
           (sample_fs ["a"; "tiny"; "locked"; "b"]) sample_hs 1024 "d").
  by vm_compute.
Defined.

(** X4: [calculate_hashes] never raises. It opens the file once and
    returns either two digests, logging nothing, or [(None, None)] with
    exactly one error logged about that file; the latter happens exactly
    when reading or hashing raises. *)
Theorem calculate_hashes_returns_both_or_none fs hs (p : string) :
  ∃ tr,
    calculate_hashes fs hs p = (Ok (hashes_of fs hs p), Open p :: tr)
    ∧ ((hashing_fails fs hs p ∧ hashes_of fs hs p = (None, None)
        ∧ ∃ ev, tr = [ev] ∧ is_hash_error_log p ev)
       ∨ (¬ hashing_fails fs hs p
          ∧ (∃ s x, hashes_of fs hs p = (Some s, Some x))
          ∧ tr = [])).
Proof.
  assert (∀ e, hashing_fails fs hs p →
            (calculate_hashes fs hs p).2 = [Open p; LogFileNotFound p]
            ∨ (calculate_hashes fs hs p).2 = [Open p; LogPermission p]
            ∨ (calculate_hashes fs hs p).2 = [Open p; LogHashError p e] →
            ∃ tr,
              calculate_hashes fs hs p = (Ok (hashes_of fs hs p), Open p :: tr)
              ∧ ((hashing_fails fs hs p ∧ hashes_of fs hs p = (None, None)
                  ∧ ∃ ev, tr = [ev] ∧ is_hash_error_log p ev)
                 ∨ (¬ hashing_fails fs hs p
                    ∧ (∃ s x, hashes_of fs hs p = (Some s, Some x))
                    ∧ tr = []))) as Hfailing.
  { intros e Hfail Htr. rewrite calculate_hashes_pair.
    unfold is_hash_error_log.
    destruct Htr as [-> | [-> | ->]]; eexists; (split; [done |]); left;
      (split; [done |]);
      (split; [by apply hashing_fails_hashes_of |]);
      eexists; (split; [done |]); eauto. }
  destruct (read fs p) as [c | e] eqn:Hread;
    [destruct (ssdeep_hash hs c) as [s | e] eqn:Hs;
     [destruct (xxh64_hexdigest hs c) as [x | e] eqn:Hx |] |].
  - exists []. split.
    + unfold calculate_hashes, hashes_of, try_except, bind, emit, lift, ret.
      rewrite Hread. cbn. rewrite Hs. cbn. by rewrite Hx.
    + right. split; [| split; [| done]].
      * intros [[e He] | (c' & Hc' & [[e He] | [e He]])];
          [congruence | |]; rewrite Hread in Hc'; inversion Hc'; subst c';
          congruence.
      * unfold hashes_of. rewrite Hread, Hs, Hx. eauto.
  - apply (Hfailing e).
    + right. exists c. split; [done |]. right. by exists e.
    + unfold calculate_hashes, try_except, bind, emit, lift, ret.
      rewrite Hread. cbn. rewrite Hs. cbn. rewrite Hx.
      destruct e; cbn; auto.
  - apply (Hfailing e).
    + right. exists c. split; [done |]. left. by exists e.
    + unfold calculate_hashes, try_except, bind, emit, lift, ret.
      rewrite Hread. cbn. rewrite Hs.
      destruct e; cbn; auto.
  - apply (Hfailing e).
    + left. by exists e.
    + unfold calculate_hashes, try_except, bind, emit, lift, ret.
      rewrite Hread.
      destruct e; cbn; auto.
Qed.

(** X5: every path of a yielded pair is a file of the walk that passes
    the size check and has two truthy hashes. *)
Theorem yielded_paths_are_eligible_files fs hs compare directory
    threshold min_size r c (p : string) :
  (r, c) ∈ (find_similar_files fs hs compare directory threshold min_size).1 →
  p ∈ c →
  p ∈ walked fs directory ∧ eligible fs hs min_size p = true.
Proof.
  rewrite find_similar_files_value.
  destruct (negb (isdir fs directory)); [intros H; by apply elem_of_nil in H |].
  destruct (scan fs hs min_size directory).1 as [tbl | e] eqn:Hscan;
    [| intros H; by apply elem_of_nil in H].
  intros Hrc Hp. apply (scan_keys fs hs min_size directory tbl p Hscan).
  apply cluster_pass_elem in Hrc. by eapply cluster_pass_keys.
Qed.

Lemma yielded_paths_are_eligible_files_witness :
  "d/b" ∈ walked (sample_fs ["a"; "tiny"; "locked"; "b"]) "d"
  ∧ eligible (sample_fs ["a"; "tiny"; "locked"; "b"]) sample_hs 1024 "d/b"
    = true.
Proof.
  apply (yielded_paths_are_eligible_files
           (sample_fs ["a"; "tiny"; "locked"; "b"]) sample_hs cmpA "d" 70 1024
           "d/a" ["d/a"; "d/b"] "d/b").
  - vm_compute. left.
  - right. left.
Defined.

Lemma all_paths_app (y1 y2 : list (string * list string)) :
  all_paths (y1 ++ y2) = all_paths y1 ++ all_paths y2.
Proof. unfold all_paths. by rewrite fmap_app, join_app. Qed.

Lemma members_of_app (y1 y2 : list (string * list string)) :
  members_of (y1 ++ y2) = members_of y1 ++ members_of y2.
Proof. unfold members_of. by rewrite !fmap_app, join_app. Qed.

(** With a symmetric comparison and distinct keys no path occurs twice
    in what the code yields. *)
Lemma cluster_pass_paths_NoDup compare threshold tbl :
  (∀ a b, compare a b = compare b a) → NoDup (keys tbl) →
  NoDup (all_paths (cluster_pass compare threshold tbl)).
Proof.
  intros Hsym Hnd.
  pose proof (cluster_pass_NoDup compare threshold tbl Hsym Hnd) as Hspec.
  destruct (cluster_pass_prefix compare threshold tbl) as [k Hk].
  rewrite Hk, all_paths_app in Hspec. by apply NoDup_app in Hspec as [? _].
Qed.

(** X6: with a symmetric comparison, whatever the directory holds, no
    path occurs twice in what the generator yields: the table the scan
    builds has distinct keys. *)
Theorem find_similar_files_yields_each_path_once fs hs compare directory
    threshold min_size :
  (∀ a b, compare a b = compare b a) →
  NoDup (all_paths
           (find_similar_files fs hs compare directory threshold min_size).1).
Proof.
  intros Hsym. rewrite find_similar_files_value.
  destruct (negb (isdir fs directory)); [constructor |].
  destruct (scan fs hs min_size directory).1 as [tbl | e] eqn:Hscan;
    [| constructor].
  apply scan_ok in Hscan as [_ Hnd]. by apply cluster_pass_paths_NoDup.
Qed.

Lemma find_similar_files_yields_each_path_once_witness :
  NoDup (all_paths
           (find_similar_files (sample_fs ["a"; "tiny"; "locked"; "b"])
              sample_hs cmpA "d" 70 1024).1).
Proof.
  exact (find_similar_files_yields_each_path_once
           (sample_fs ["a"; "tiny"; "locked"; "b"]) sample_hs cmpA "d" 70 1024
           cmpA_sym).
Defined.

(** ** What the registry guarantees, for any comparison *)

Section registry.
Variable compare : hashval → hashval → cmp_result.
Variable threshold : Z.
Variable tbl : DigestTable.

Lemma similar_score h1 h2 :
  similar compare threshold h1 h2 = true
  ↔ ∃ s, compare h1 h2 = Similarity s ∧ threshold ≤ s.
Proof.
  unfold similar. destruct (compare h1 h2) as [s | |].
  - rewrite Z.geb_le. split; [eauto |]. by intros (s' & [= <-] & ?).
  - split; [done | by intros (? & ? & _)].
  - split; [done | by intros (? & ? & _)].
Qed.

(** No path of a pair yielded from registry [clusters] is in [clusters]. *)
Lemma emitted_fresh items : ∀ clusters rc q,
  rc ∈ emitted compare threshold tbl clusters items → q ∈ rc.2 →
  q ∉ clusters.
Proof.
  induction items as [| [p1 [h1 x1]] rest IH]; intros clusters rc q Hrc Hq.
  - by apply elem_of_nil in Hrc.
  - cbn [emitted] in Hrc.
    destruct (bool_decide (p1 ∈ clusters)) eqn:Hreg; [by eapply IH |].
    apply bool_decide_eq_false in Hreg. cbv zeta in Hrc.
    assert (rc ∈ emitted compare threshold tbl
                   (clusters ∪ list_to_set
                      (gathered compare threshold p1 h1 clusters tbl)) rest →
            q ∉ clusters) as Hrest.
    { intros H Hin. apply (IH _ _ _ H Hq). set_solver. }
    destruct (gathered compare threshold p1 h1 clusters tbl) as [| m ms] eqn:Hg;
      [by apply Hrest |].
    apply elem_of_cons in Hrc as [-> | Hrc]; [| by apply Hrest].
    cbn [snd] in Hq. apply elem_of_cons in Hq as [-> | Hq]; [done |].
    rewrite <- Hg in Hq. by apply gathered_sound in Hq as (_ & ? & _).
Qed.

(** A yielded pair comes from an entry of [items], and what follows the
    representative was compared against it and met the threshold. *)
Lemma emitted_sound items : ∀ clusters rc,
  rc ∈ emitted compare threshold tbl clusters items →
  ∃ hr xr, (rc.1, (hr, xr)) ∈ items
    ∧ ∀ m, m ∈ tail rc.2 →
        m ≠ rc.1 ∧ ∃ hm xm, (m, (hm, xm)) ∈ tbl
                            ∧ similar compare threshold hr hm = true.
Proof.
  induction items as [| [p1 [h1 x1]] rest IH]; intros clusters rc Hrc.
  - by apply elem_of_nil in Hrc.
  - assert (∀ clusters', rc ∈ emitted compare threshold tbl clusters' rest →
              ∃ hr xr, (rc.1, (hr, xr)) ∈ (p1, (h1, x1)) :: rest
                ∧ ∀ m, m ∈ tail rc.2 →
                    m ≠ rc.1 ∧ ∃ hm xm, (m, (hm, xm)) ∈ tbl
                        ∧ similar compare threshold hr hm = true) as Hrest.
    { intros clusters' H. destruct (IH _ _ H) as (hr & xr & Hin & Hms).
      exists hr, xr. split; [by right | done]. }
    cbn [emitted] in Hrc.
    destruct (bool_decide (p1 ∈ clusters)); [by eapply Hrest |].
    cbv zeta in Hrc.
    destruct (gathered compare threshold p1 h1 clusters tbl) as [| m ms] eqn:Hg;
      [by eapply Hrest |].
    apply elem_of_cons in Hrc as [-> | Hrc]; [| by eapply Hrest].
    exists h1, x1. split; [left |]. cbn [fst snd tail]. intros q Hq.
    rewrite <- Hg in Hq. by apply gathered_sound in Hq as (? & _ & ?).
Qed.

Lemma members_of_cons r c (yielded : list (string * list string)) :
  members_of ((r, c) :: yielded) = tail c ++ members_of yielded.
Proof. done. Qed.

(** The registry after the outer loop: what it held, and the members. *)
Lemma cluster_run_registry items : ∀ clusters yielded,
  (cluster_run_spec compare threshold tbl items (clusters, yielded)).1
  = clusters
    ∪ list_to_set (members_of (emitted compare threshold tbl clusters items)).
Proof.
  unfold cluster_run_spec.
  induction items as [| [p1 [h1 x1]] rest IH]; intros clusters yielded.
  - cbn. set_solver.
  - cbn [foldl emitted]. rewrite outer_body_gathered.
    destruct (bool_decide (p1 ∈ clusters)); [apply IH |]. cbv zeta.
    destruct (gathered compare threshold p1 h1 clusters tbl) as [| m ms] eqn:Hg.
    + rewrite IH. cbn. set_solver.
    + rewrite IH, members_of_cons. cbn [tail].
      rewrite list_to_set_app_L. set_solver.
Qed.

Lemma elem_of_members_of (yielded : list (string * list string)) q :
  q ∈ members_of yielded ↔ ∃ rc, rc ∈ yielded ∧ q ∈ tail rc.2.
Proof.
  unfold members_of. rewrite list_elem_of_join. split.
  - intros (l & Hq & Hl). apply list_elem_of_fmap in Hl as (c & -> & Hc).
    apply list_elem_of_fmap in Hc as (rc & -> & Hrc). by exists rc.
  - intros (rc & Hrc & Hq). exists (tail rc.2). split; [done |].
    apply list_elem_of_fmap. exists rc.2. split; [done |].
    apply list_elem_of_fmap. by exists rc.
Qed.

(** Members are claimed once: later pairs hold none of them. *)
Lemma emitted_claimed_once items : ∀ clusters (i j : nat) rci rcj q,
  emitted compare threshold tbl clusters items !! i = Some rci →
  emitted compare threshold tbl clusters items !! j = Some rcj →
  (i < j)%nat → q ∈ tail rci.2 → q ∉ rcj.2.
Proof.
  induction items as [| [p1 [h1 x1]] rest IH];
    intros clusters i j rci rcj q Hi Hj Hlt Hq.
  - cbn in Hi. by rewrite lookup_nil in Hi.
  - cbn [emitted] in Hi, Hj.
    destruct (bool_decide (p1 ∈ clusters)); [exact (IH _ _ _ _ _ _ Hi Hj Hlt Hq) |].
    cbv zeta in Hi, Hj.
    destruct (gathered compare threshold p1 h1 clusters tbl) as [| m ms] eqn:Hg;
      [exact (IH _ _ _ _ _ _ Hi Hj Hlt Hq) |].
    destruct j as [| j]; [lia |]. cbn in Hj.
    destruct i as [| i]; cbn in Hi.
    + inversion Hi; subst rci. cbn [snd tail] in Hq. intros Hin.
      apply list_elem_of_lookup_2 in Hj.
      apply (emitted_fresh _ _ _ _ Hj Hin). set_solver.
    + apply (IH _ i j rci rcj q Hi Hj); [lia | done].
Qed.

Lemma emitted_members_NoDup items : ∀ clusters,
  NoDup (members_of (emitted compare threshold tbl clusters items)).
Proof.
  induction items as [| [p1 [h1 x1]] rest IH]; intros clusters.
  - constructor.
  - cbn [emitted]. destruct (bool_decide (p1 ∈ clusters)); [apply IH |].
    cbv zeta.
    destruct (gathered compare threshold p1 h1 clusters tbl) as [| m ms] eqn:Hg;
      [apply IH |].
    rewrite members_of_cons. cbn [tail]. rewrite <- Hg.
    apply NoDup_app. split; [apply gathered_NoDup |]. split; [| apply IH].
    intros q Hq Hq'. apply elem_of_members_of in Hq' as (rc & Hrc & Hq').
    apply (emitted_fresh _ _ _ q Hrc).
    + destruct rc as [r [| r' c]]; cbn in *; [by apply elem_of_nil in Hq' |].
      by right.
    + apply elem_of_union. right. by apply elem_of_list_to_set.
Qed.
End registry.

(** What follows a representative in the specification's pass. *)
Lemma spec_members_similar compare threshold (tbl : DigestTable) :
  Forall (λ rc : string * list string,
            ∃ hr xr, (rc.1, (hr, xr)) ∈ tbl
              ∧ Forall (λ m, m ≠ rc.1
                          ∧ ∃ hm xm s, (m, (hm, xm)) ∈ tbl
                              ∧ compare hr hm = Similarity s ∧ threshold ≤ s)
                  (tail rc.2))
         (cluster_pass_spec compare threshold tbl).
Proof.
  rewrite cluster_pass_emitted. apply Forall_forall. intros rc Hrc.
  destruct (emitted_sound _ _ _ _ _ _ Hrc) as (hr & xr & Hin & Hms).
  exists hr, xr. split; [done |]. apply Forall_forall. intros m Hm.
  destruct (Hms m Hm) as (Hne & hm & xm & Hmt & Hs). split; [done |].
  apply similar_score in Hs as (s & Hc & Hle). by exists hm, xm, s.
Qed.

(** X7: in every yielded pair, each path after the representative is
    another key of the table whose fuzzy digest, compared against the
    representative's, returned a score at or above the threshold. *)
Theorem members_meet_threshold compare threshold (tbl : DigestTable) :
  Forall (λ rc : string * list string,
            ∃ hr xr, (rc.1, (hr, xr)) ∈ tbl
              ∧ Forall (λ m, m ≠ rc.1
                          ∧ ∃ hm xm s, (m, (hm, xm)) ∈ tbl
                              ∧ compare hr hm = Similarity s ∧ threshold ≤ s)
                  (tail rc.2))
         (cluster_pass compare threshold tbl).
Proof. apply cluster_pass_Forall, spec_members_similar. Qed.

(** In the specification's pass a path is claimed at most once. *)
Lemma spec_claimed_once compare threshold (tbl : DigestTable) :
  NoDup (members_of (cluster_pass_spec compare threshold tbl))
  ∧ ∀ (i j : nat) rci rcj q,
      cluster_pass_spec compare threshold tbl !! i = Some rci →
      cluster_pass_spec compare threshold tbl !! j = Some rcj →
      (i < j)%nat → q ∈ tail rci.2 → q ≠ rcj.1 ∧ q ∉ rcj.2.
Proof.
  rewrite cluster_pass_emitted. split; [apply emitted_members_NoDup |].
  intros i j rci rcj q Hi Hj Hlt Hq.
  pose proof (emitted_claimed_once _ _ _ _ _ _ _ _ _ q Hi Hj Hlt Hq) as Hnot.
  split; [| done]. intros ->. apply Hnot.
  pose proof (emitted_shape compare threshold tbl tbl ∅) as Hall.
  rewrite Forall_forall in Hall.
  destruct (Hall rcj) as (ms & -> & _); [by eapply list_elem_of_lookup_2 |].
  left.
Qed.

(** X8: whatever the comparison does, a path is claimed at most once: the
    paths that follow the representatives are all distinct, and a path
    that follows a representative occurs in no pair yielded later,
    neither as its representative nor after it. *)
Theorem members_are_claimed_once compare threshold (tbl : DigestTable) :
  NoDup (members_of (cluster_pass compare threshold tbl))
  ∧ ∀ (i j : nat) rci rcj q,
      cluster_pass compare threshold tbl !! i = Some rci →
      cluster_pass compare threshold tbl !! j = Some rcj →
      (i < j)%nat → q ∈ tail rci.2 → q ≠ rcj.1 ∧ q ∉ rcj.2.
Proof.
  destruct (spec_claimed_once compare threshold tbl)
    as [Hnd Hlater].
  split.
  - destruct (cluster_pass_prefix compare threshold tbl) as [k Hk].
    rewrite Hk, members_of_app in Hnd. by apply NoDup_app in Hnd as [? _].
  - intros i j rci rcj q Hi Hj. apply (Hlater i j rci rcj q);
      by apply cluster_pass_lookup.
Qed.

Lemma members_are_claimed_once_witness :
  "b" ≠ ("c", ["c"; "d"]).1 ∧ "b" ∉ ("c", ["c"; "d"]).2.
Proof.
  apply (proj2 (members_are_claimed_once cmpA 70 tblB)
           0%nat 1%nat ("a", ["a"; "b"]) ("c", ["c"; "d"]) "b").
  - by vm_compute.
  - by vm_compute.
  - lia.
  - left.
Defined.

(** X9: when the pass runs to its end without an error, the registry
    [clusters] holds exactly the paths that follow a representative in
    some yielded pair. *)
Theorem registry_is_the_members compare threshold (tbl : DigestTable)
    (q : string) :
  cluster_pass_raises compare threshold tbl = false →
  q ∈ (cluster_run compare threshold tbl tbl (∅, [])).1.1
  ↔ ∃ rc, rc ∈ cluster_pass compare threshold tbl ∧ q ∈ tail rc.2.
Proof.
  intros Hret. rewrite (cluster_pass_returns compare threshold tbl Hret).
  unfold cluster_pass_raises in Hret. rewrite cluster_run_returns by done.
  rewrite cluster_run_registry, cluster_pass_emitted.
  rewrite <- elem_of_members_of. set_solver.
Qed.

Lemma registry_is_the_members_witness :
  "b" ∈ (cluster_run cmpA 70 tblA tblA (∅, [])).1.1
  ↔ ∃ rc, rc ∈ cluster_pass cmpA 70 tblA ∧ "b" ∈ tail rc.2.
Proof.
  apply (registry_is_the_members cmpA 70 tblA "b"). by vm_compute.
Defined.

(** ** What is left unclustered *)

Section unclustered.
Variable compare : hashval → hashval → cmp_result.
Variable threshold : Z.
Variable tbl : DigestTable.

Lemma compared_all_step pre clusters p1 h1 x1 :
  compared_all compare threshold tbl pre clusters →
  compared_all compare threshold tbl (pre ++ [(p1, (h1, x1))])
    (clusters ∪ list_to_set (gathered compare threshold p1 h1 clusters tbl)).
Proof.
  intros Hinv p h x Hin Hp p2 h2 x2 Hin2 Hne.
  apply not_elem_of_union in Hp as [Hp Hpms].
  apply elem_of_app in Hin as [Hin | Hin].
  - destruct (Hinv p h x Hin Hp p2 h2 x2 Hin2 Hne) as [H | H]; [| by right].
    left. apply elem_of_union. by left.
  - apply list_elem_of_singleton in Hin. inversion Hin; subst p h x.
    destruct (similar compare threshold h1 h2) eqn:Hs; [left | by right].
    apply elem_of_union.
    destruct (gathered_complete compare threshold p1 h1 tbl clusters
                p2 h2 x2 Hin2 Hne Hs) as [H | H]; [by left | right].
    by apply elem_of_list_to_set.
Qed.

Lemma cluster_run_compared_all items : ∀ pre clusters yielded,
  compared_all compare threshold tbl pre clusters →
  compared_all compare threshold tbl (pre ++ items)
    (cluster_run_spec compare threshold tbl items (clusters, yielded)).1.
Proof.
  unfold cluster_run_spec.
  induction items as [| [p1 [h1 x1]] rest IH]; intros pre clusters yielded Hinv.
  - cbn. by rewrite app_nil_r.
  - cbn [foldl]. rewrite outer_body_gathered.
    replace (pre ++ (p1, (h1, x1)) :: rest)
      with ((pre ++ [(p1, (h1, x1))]) ++ rest) by (by rewrite <- app_assoc).
    destruct (bool_decide (p1 ∈ clusters)) eqn:Hreg.
    + apply bool_decide_eq_true in Hreg. apply IH.
      by apply compared_all_claimed.
    + cbv zeta. apply IH. by apply compared_all_step.
Qed.

(** Two entries that no representative has claimed are not similar. *)
Lemma unclaimed_not_similar p h x q h' x' :
  (p, (h, x)) ∈ tbl → (q, (h', x')) ∈ tbl → p ≠ q →
  p ∉ members_of (cluster_pass_spec compare threshold tbl) →
  q ∉ members_of (cluster_pass_spec compare threshold tbl) →
  similar compare threshold h h' = false.
Proof.
  intros Hp Hq Hne Hpm Hqm.
  assert (compared_all compare threshold tbl ([] ++ tbl)
            (cluster_run_spec compare threshold tbl tbl (∅, [])).1) as Hall.
  { apply cluster_run_compared_all. intros ? ? ? H. by apply elem_of_nil in H. }
  rewrite cluster_run_registry, <- cluster_pass_emitted in Hall.
  assert (∀ k, k ∉ members_of (cluster_pass_spec compare threshold tbl) →
               k ∉ (∅ : gset string)
                     ∪ list_to_set
                         (members_of (cluster_pass_spec compare threshold tbl)))
    as Hout.
  { intros k Hk Hin. apply elem_of_union in Hin as [Hin | Hin];
      [by apply not_elem_of_empty in Hin |].
    by apply elem_of_list_to_set in Hin. }
  destruct (Hall p h x Hp (Hout p Hpm) q h' x' Hq (not_eq_sym Hne))
    as [H | H]; [| done].
  by apply Hout in H.
Qed.

Lemma gathered_none p1 h1 items : ∀ clusters,
  (∀ q h x, (q, (h, x)) ∈ items → q ≠ p1 →
     similar compare threshold h1 h = false) →
  gathered compare threshold p1 h1 clusters items = [].
Proof.
  induction items as [| [q [h x]] rest IH]; intros clusters Hno; [done |].
  cbn [gathered].
  destruct (bool_decide (p1 ≠ q)) eqn:Hne.
  - apply bool_decide_eq_true in Hne.
    rewrite (Hno q h x) by (by left || done). rewrite andb_false_r.
    apply IH. intros q' h' x' Hin. apply (Hno q' h' x'). by right.
  - cbn [andb]. apply IH. intros q' h' x' Hin. apply (Hno q' h' x'). by right.
Qed.

Lemma emitted_none items : ∀ clusters,
  (∀ p h x, (p, (h, x)) ∈ items →
     gathered compare threshold p h clusters tbl = []) →
  emitted compare threshold tbl clusters items = [].
Proof.
  induction items as [| [p1 [h1 x1]] rest IH]; intros clusters Hno; [done |].
  cbn [emitted].
  destruct (bool_decide (p1 ∈ clusters)).
  - apply IH. intros p h x Hin. apply (Hno p h x). by right.
  - cbv zeta. rewrite (Hno p1 h1 x1) by left. cbn [list_to_set].
    replace (clusters ∪ ∅) with clusters by set_solver.
    apply IH. intros p h x Hin. apply (Hno p h x). by right.
Qed.

Lemma gathered_all p1 h1 items : ∀ clusters,
  p1 ∉ keys items → NoDup (keys items) →
  (∀ k, k ∈ keys items → k ∉ clusters) →
  (∀ q h x, (q, (h, x)) ∈ items → similar compare threshold h1 h = true) →
  gathered compare threshold p1 h1 clusters items = keys items.
Proof.
  unfold keys.
  induction items as [| [q [h x]] rest IH]; intros clusters Hp1 Hnd Hfree Hsim;
    [done |].
  cbn [gathered fmap list_fmap fst] in *.
  apply not_elem_of_cons in Hp1 as [Hne Hp1].
  apply NoDup_cons in Hnd as [Hq Hnd].
  rewrite (bool_decide_eq_true_2 (p1 ≠ q)) by done.
  rewrite (bool_decide_eq_true_2 (q ∉ clusters)) by (apply Hfree; left).
  rewrite (Hsim q h x) by left. cbn [andb]. f_equal.
  apply IH; [done | done | |].
  - intros k Hk Hin. apply elem_of_union in Hin as [Hin | Hin].
    + apply (Hfree k); [by right | done].
    + apply elem_of_singleton in Hin as ->. done.
  - intros q' h' x' Hin. apply (Hsim q' h' x'). by right.
Qed.

Lemma emitted_all_claimed items : ∀ clusters,
  (∀ k, k ∈ keys items → k ∈ clusters) →
  emitted compare threshold tbl clusters items = [].
Proof.
  unfold keys.
  induction items as [| [p1 [h1 x1]] rest IH]; intros clusters Hall; [done |].
  cbn [emitted fmap list_fmap fst] in *.
  rewrite bool_decide_eq_true_2 by (apply Hall; left).
  apply IH. intros k Hk. apply Hall. by right.
Qed.
End unclustered.

(** X10: when the pass runs to its end without an error, two different
    entries of the table that follow no representative in any yielded
    pair are not similar: the comparison of their fuzzy digests, in
    either order, scored below the threshold. *)
Theorem unclaimed_entries_are_not_similar compare threshold
    (tbl : DigestTable) p h x q h' x' :
  cluster_pass_raises compare threshold tbl = false →
  (p, (h, x)) ∈ tbl → (q, (h', x')) ∈ tbl → p ≠ q →
  p ∉ members_of (cluster_pass compare threshold tbl) →
  q ∉ members_of (cluster_pass compare threshold tbl) →
  (∀ s, compare h h' = Similarity s → s < threshold)
  ∧ (∀ s, compare h' h = Similarity s → s < threshold).
Proof.
  intros Hret. rewrite (cluster_pass_returns compare threshold tbl Hret).
  intros Hp Hq Hne Hpm Hqm.
  assert (∀ a b, similar compare threshold a b = false →
                 ∀ s, compare a b = Similarity s → s < threshold) as Hlow.
  { intros a b Hs s Hc. unfold similar in Hs. rewrite Hc in Hs.
    rewrite Z.geb_leb in Hs. apply Z.leb_gt in Hs. lia. }
  split; apply Hlow.
  - by eapply unclaimed_not_similar.
  - eapply unclaimed_not_similar; eauto.
Qed.

Lemma unclaimed_entries_are_not_similar_witness :
  (∀ s, cmpA (Some "h1") (Some "h2") = Similarity s → s < 70)
  ∧ (∀ s, cmpA (Some "h2") (Some "h1") = Similarity s → s < 70).
Proof.
  apply (unclaimed_entries_are_not_similar cmpA 70 tblA
           "a" (Some "h1") (Some "x1") "c" (Some "h2") (Some "x3")).
  - by vm_compute.
  - left.
  - right. right. left.
  - done.
  - apply (bool_decide_unpack _). by vm_compute.
  - apply (bool_decide_unpack _). by vm_compute.
Defined.

(** X11: when the pass runs to its end without an error, it has yielded
    nothing exactly when no entry of the table is similar to an entry
    with another key. *)
Theorem nothing_yielded_iff_nothing_similar compare threshold
    (tbl : DigestTable) :
  cluster_pass_raises compare threshold tbl = false →
  cluster_pass compare threshold tbl = []
  ↔ ∀ p h x q h' x',
      (p, (h, x)) ∈ tbl → (q, (h', x')) ∈ tbl → p ≠ q →
      similar compare threshold h h' = false.
Proof.
  intros Hret. rewrite (cluster_pass_returns compare threshold tbl Hret).
  split.
  - intros Hnil p h x q h' x' Hp Hq Hne.
    apply (unclaimed_not_similar compare threshold tbl p h x q h' x');
      try done; rewrite Hnil; cbn; apply not_elem_of_nil.
  - intros Hno. rewrite cluster_pass_emitted. apply emitted_none.
    intros p h x Hp. apply gathered_none. intros q h' x' Hq Hne.
    by apply (Hno p h x q h' x').
Qed.

Lemma nothing_yielded_iff_nothing_similar_witness :
  cluster_pass cmpA 70 [("a", (Some "h1", Some "x1"));
                        ("c", (Some "h2", Some "x3"))] = []
  ↔ ∀ p h x q h' x',
      (p, (h, x)) ∈ [("a", (Some "h1", Some "x1"));
                     ("c", (Some "h2", Some "x3"))] →
      (q, (h', x')) ∈ [("a", (Some "h1", Some "x1"));
                       ("c", (Some "h2", Some "x3"))] →
      p ≠ q → similar cmpA 70 h h' = false.
Proof.
  apply (nothing_yielded_iff_nothing_similar cmpA 70). by vm_compute.
Defined.

(** A table of one entry: no comparison is made, nothing is yielded. *)
Example single_entry_yields_nothing compare threshold p v :
  cluster_pass compare threshold [(p, v)] = []
  ∧ cluster_pass_raises compare threshold [(p, v)] = false.
Proof.
  destruct v as [h x].
  assert ((inner_loop compare threshold [(p, (h, x))] p h ∅).2 = false)
    as Hin.
  { apply inner_returns. intros q h' x' Hq Hne.
    apply list_elem_of_singleton in Hq. congruence. }
  assert (cluster_pass_raises compare threshold [(p, (h, x))] = false) as Hret.
  { unfold cluster_pass_raises, cluster_run. cbn [for_each].
    pose proof (outer_body_raised compare threshold [(p, (h, x))] ∅ [] p h x)
      as Hr.
    rewrite bool_decide_eq_false_2, Hin in Hr by apply not_elem_of_empty.
    destruct (outer_body compare threshold [(p, (h, x))] (∅, []) (p, (h, x)))
      as [st' raised]. cbn [snd] in Hr. by subst raised. }
  split; [| done]. rewrite cluster_pass_returns by done.
  rewrite cluster_pass_emitted. apply emitted_none.
  intros p1 h1 x1 Hp. apply gathered_none. intros q h' x' Hq Hne.
  apply list_elem_of_singleton in Hp, Hq. congruence.
Qed.

Lemma cluster_run_all_claimed compare threshold tbl items :
  ∀ clusters yielded,
    (∀ k, k ∈ keys items → k ∈ clusters) →
    cluster_run compare threshold tbl items (clusters, yielded)
    = ((clusters, yielded), false).
Proof.
  unfold keys, cluster_run.
  induction items as [| [p1 [h1 x1]] rest IH]; intros clusters yielded Hall;
    [done |].
  cbn [for_each fmap list_fmap fst] in *. unfold outer_body at 1.
  rewrite bool_decide_eq_true_2 by (apply Hall; left).
  apply IH. intros k Hk. apply Hall. by right.
Qed.

(** X12: when the keys are distinct and the first entry is similar to
    every other entry (so at threshold 0 with a comparison that always
    returns a score of at least 0), the pass yields one pair: the first
    key, with the list of all keys in table order. *)
Theorem one_cluster_when_first_is_similar_to_all compare threshold
    p1 h1 x1 (rest : DigestTable) :
  NoDup (keys ((p1, (h1, x1)) :: rest)) →
  rest ≠ [] →
  (∀ q h x, (q, (h, x)) ∈ rest →
     ∃ s, compare h1 h = Similarity s ∧ threshold ≤ s) →
  cluster_pass compare threshold ((p1, (h1, x1)) :: rest)
  = [(p1, keys ((p1, (h1, x1)) :: rest))].
Proof.
  intros Hnd Hrest Hsim. unfold keys in *. cbn [fmap list_fmap fst] in *.
  apply NoDup_cons in Hnd as [Hp1 Hnd].
  assert (gathered compare threshold p1 h1 ∅ ((p1, (h1, x1)) :: rest)
          = rest.*1) as Hg.
  { cbn [gathered]. rewrite (bool_decide_eq_false_2 (p1 ≠ p1)) by tauto.
    cbn [andb]. apply gathered_all; try done.
    intros q h x Hin. apply similar_score. by eapply Hsim. }
  assert ((inner_loop compare threshold ((p1, (h1, x1)) :: rest) p1 h1 ∅).2
          = false) as Hin.
  { apply inner_returns. intros q h x Hq Hne.
    apply elem_of_cons in Hq as [Heq | Hq]; [by inversion Heq |].
    destruct (Hsim q h x Hq) as (s & Hs & _). eauto. }
  unfold cluster_pass, cluster_run. cbn [for_each].
  rewrite outer_body_unclaimed by (done || apply not_elem_of_empty).
  rewrite outer_body_gathered.
  rewrite bool_decide_eq_false_2 by apply not_elem_of_empty. cbv zeta.
  rewrite Hg. destruct rest as [| [q v] rest']; [done |].
  cbn [fmap list_fmap fst].
  match goal with
  | |- (for_each ?body ?st ?items).1.2 = _ =>
      pose proof (cluster_run_all_claimed compare threshold
                    ((p1, (h1, x1)) :: (q, v) :: rest') items st.1 st.2)
        as Hrun
  end.
  unfold cluster_run in Hrun. cbn [fst snd] in Hrun. rewrite Hrun; [done |].
  intros k Hk. apply elem_of_union. right. by apply elem_of_list_to_set.
Qed.

Lemma one_cluster_when_first_is_similar_to_all_witness :
  cluster_pass cmpA 0 tblA = [("a", ["a"; "b"; "c"])].
Proof.
  apply (one_cluster_when_first_is_similar_to_all cmpA 0
           "a" (Some "h1") (Some "x1")
           [("b", (Some "h1", Some "x2")); ("c", (Some "h2", Some "x3"))]).
  - exact tblA_NoDup.
  - done.
  - intros q h x Hin.
    apply elem_of_cons in Hin as [[= -> -> ->] | Hin];
      [exists 100; split; [done | lia] |].
    apply list_elem_of_singleton in Hin as [= -> -> ->].
    exists 10. split; [done | lia].
Defined.

(** ** How many pairs, and what the pass reads of the table *)

Lemma all_paths_length tbl (yielded : list (string * list string)) :
  Forall (cluster_shape tbl) yielded →
  (2 * length yielded ≤ length (all_paths yielded))%nat.
Proof.
  unfold all_paths. induction 1 as [| [r c] yielded Hrc Hall IH]; [done |].
  change (mjoin ((r, c) :: yielded).*2) with (c ++ mjoin yielded.*2).
  rewrite length_app.
  destruct Hrc as (ms & Hc & Hne & _). cbn [fst snd] in Hc. subst c.
  destruct ms as [| m ms]; [done |]. cbn [length]. lia.
Qed.

(** The pairs of the specification's pass are at most half as many as
    the entries. *)
Lemma spec_at_most_half compare threshold (tbl : DigestTable) :
  (∀ a b, compare a b = compare b a) →
  NoDup (keys tbl) →
  (2 * length (cluster_pass_spec compare threshold tbl) ≤ length tbl)%nat.
Proof.
  intros Hsym Hnd.
  pose proof (emitted_shape compare threshold tbl tbl ∅) as Hshape.
  rewrite <- cluster_pass_emitted in Hshape.
  apply all_paths_length in Hshape.
  assert (length (all_paths (cluster_pass_spec compare threshold tbl))
          ≤ length (keys tbl))%nat as Hle.
  { apply submseteq_length, NoDup_submseteq.
    - by apply cluster_pass_NoDup.
    - intros q Hq. unfold all_paths in Hq.
      apply list_elem_of_join in Hq as (c & Hq & Hc).
      apply list_elem_of_fmap in Hc as ([r c'] & -> & Hrc).
      by eapply cluster_pass_keys. }
  unfold keys in Hle. rewrite length_fmap in Hle. lia.
Qed.

(** X13: with a symmetric comparison and distinct keys, the yielded
    pairs are at most half as many as the entries of the table. *)
Theorem at_most_half_as_many_pairs compare threshold (tbl : DigestTable) :
  (∀ a b, compare a b = compare b a) →
  NoDup (keys tbl) →
  (2 * length (cluster_pass compare threshold tbl) ≤ length tbl)%nat.
Proof.
  intros Hsym Hnd.
  pose proof (spec_at_most_half compare threshold tbl Hsym Hnd)
    as Hspec.
  pose proof (prefix_length _ _ (cluster_pass_prefix compare threshold tbl))
    as Hlen.
  lia.
Qed.

Lemma at_most_half_as_many_pairs_witness :
  (2 * length (cluster_pass cmpA 70 tblB) ≤ length tblB)%nat.
Proof.
  exact (at_most_half_as_many_pairs cmpA 70 tblB cmpA_sym tblB_NoDup).
Defined.

Lemma inner_loop_restamp compare threshold g tbl p1 h1 clusters :
  inner_loop compare threshold (restamp g tbl) p1 h1 clusters
  = inner_loop compare threshold tbl p1 h1 clusters.
Proof.
  unfold inner_loop, restamp. rewrite for_each_fmap. apply for_each_ext.
  by intros st [p2 [h2 x]].
Qed.

Lemma cluster_run_restamp compare threshold g tbl items st :
  cluster_run compare threshold (restamp g tbl) (restamp g items) st
  = cluster_run compare threshold tbl items st.
Proof.
  unfold cluster_run. unfold restamp at 2. rewrite for_each_fmap.
  apply for_each_ext. intros [clusters yielded] [p1 [h1 x]].
  unfold outer_body. cbn [fst snd]. by rewrite inner_loop_restamp.
Qed.

(** X14: the pass never reads the strong digests: a table that differs
    only in them yields the same pairs. *)
Theorem strong_digest_is_not_consulted compare threshold
    (g : string → hashval → hashval) (tbl : DigestTable) :
  cluster_pass compare threshold (restamp g tbl)
  = cluster_pass compare threshold tbl.
Proof. unfold cluster_pass. by rewrite cluster_run_restamp. Qed.

(** ** The comparisons of a pass *)

Section calls.
Variable compare : hashval → hashval → cmp_result.
Variable threshold : Z.

Lemma for_each_inner_body_calls p1 h1 items : ∀ st calls,
  ∃ new,
    for_each (inner_body_calls compare threshold p1 h1) (st, calls) items
    = (((for_each (inner_body compare threshold p1 h1) st items).1,
        calls ++ new),
       (for_each (inner_body compare threshold p1 h1) st items).2)
    ∧ Forall (call_ok p1 items) new
    ∧ (length new ≤ length (filter (λ k, k ≠ p1) (keys items)))%nat.
Proof.
  unfold keys.
  induction items as [| [p2 [h2 x]] rest IH]; intros st calls.
  - exists []. cbn. by rewrite app_nil_r.
  - cbn [for_each fmap list_fmap fst]. rewrite filter_cons.
    assert (∀ new, Forall (call_ok p1 rest) new →
                   Forall (call_ok p1 ((p2, (h2, x)) :: rest)) new) as Hweak.
    { intros new Hnew. eapply Forall_impl; [exact Hnew |].
      intros c (? & ? & ?).
      repeat split; try done. unfold keys. cbn. by right. }
    unfold inner_body_calls at 1, inner_body at 1 3. cbn [fst snd].
    destruct (bool_decide (p1 ≠ p2)) eqn:Hne; cbn [andb].
    + apply bool_decide_eq_true in Hne.
      rewrite decide_True by done.
      destruct (bool_decide (p2 ∉ st.1)).
      * destruct (on_compare threshold st p2 (compare h1 h2))
          as [st' raised].
        destruct raised.
        -- exists [(p1, p2)]. split; [done |]. split; [| cbn [length]; lia].
           constructor; [| constructor].
           repeat split; try done. unfold keys. cbn. left.
        -- destruct (IH st' (calls ++ [(p1, p2)])) as (new & -> & Hall & Hlen).
           exists ((p1, p2) :: new). split; [by rewrite <- app_assoc |].
           split; [| cbn [length]; lia].
           constructor; [| by apply Hweak].
           repeat split; try done. unfold keys. cbn. left.
      * destruct (IH st calls) as (new & -> & Hall & Hlen).
        exists new. split; [done |]. split; [by apply Hweak |].
        cbn [length]. lia.
    + apply bool_decide_eq_false in Hne. apply dec_stable in Hne. subst p2.
      rewrite decide_False by tauto.
      destruct (IH st calls) as (new & -> & Hall & Hlen).
      exists new. split; [done |]. split; [by apply Hweak | done].
Qed.

Lemma outer_body_calls_step tbl clusters yielded calls p1 h1 x :
  p1 ∈ keys tbl →
  ∃ new,
    outer_body_calls compare threshold tbl (clusters, yielded, calls)
      (p1, (h1, x))
    = (((outer_body compare threshold tbl (clusters, yielded)
           (p1, (h1, x))).1, calls ++ new),
       (outer_body compare threshold tbl (clusters, yielded)
          (p1, (h1, x))).2)
    ∧ Forall (call_ok p1 tbl) new
    ∧ (length new ≤ length tbl - 1)%nat.
Proof.
  intros Hp1. unfold outer_body_calls, outer_body.
  destruct (bool_decide (p1 ∈ clusters)).
  - exists []. rewrite app_nil_r. split; [done |].
    split; [constructor | cbn; lia].
  - unfold inner_loop.
    destruct (for_each_inner_body_calls p1 h1 tbl (clusters, [p1]) calls)
      as (new & -> & Hall & Hlen).
    exists new.
    destruct (for_each (inner_body compare threshold p1 h1) (clusters, [p1]) tbl)
      as [[clusters' cluster] raised]. cbn [fst snd].
    split.
    { destruct raised; [done |]. by destruct (1 <? length cluster)%nat. }
    split; [done |].
    pose proof (length_filter_lt (λ k, k ≠ p1) (keys tbl) p1 Hp1) as Hlt.
    unfold keys in *. rewrite length_fmap in Hlt.
    assert (¬ p1 ≠ p1) as Hnn by tauto. specialize (Hlt Hnn). lia.
Qed.

Lemma for_each_outer_body_calls tbl items : ∀ st calls,
  (∀ k, k ∈ keys items → k ∈ keys tbl) →
  ∃ new,
    for_each (outer_body_calls compare threshold tbl) (st, calls) items
    = (((for_each (outer_body compare threshold tbl) st items).1,
        calls ++ new),
       (for_each (outer_body compare threshold tbl) st items).2)
    ∧ Forall (λ call, call.1 ≠ call.2
                      ∧ call.1 ∈ keys tbl ∧ call.2 ∈ keys tbl) new
    ∧ (length new ≤ length items * (length tbl - 1))%nat.
Proof.
  induction items as [| [p1 [h1 x]] rest IH]; intros [clusters yielded] calls Hsub.
  - exists []. cbn. by rewrite app_nil_r.
  - cbn [for_each].
    assert (p1 ∈ keys tbl) as Hp1 by (apply Hsub; unfold keys; cbn; left).
    destruct (outer_body_calls_step tbl clusters yielded calls p1 h1 x Hp1)
      as (new1 & -> & Hall1 & Hlen1).
    assert (Forall (λ call : string * string,
                      call.1 ≠ call.2 ∧ call.1 ∈ keys tbl ∧ call.2 ∈ keys tbl)
              new1) as Hall1'.
    { eapply Forall_impl; [exact Hall1 |].
      intros c (Hc1 & Hc2 & Hc3). rewrite Hc1. repeat split; done. }
    destruct (outer_body compare threshold tbl (clusters, yielded)
                (p1, (h1, x))) as [[clusters' yielded'] raised].
    cbn [fst snd]. destruct raised.
    + exists new1. split; [done |]. split; [done |]. cbn [length]. nia.
    + destruct (IH (clusters', yielded') (calls ++ new1))
        as (new2 & -> & Hall2 & Hlen2).
      { intros k Hk. apply Hsub. unfold keys in *. cbn. by right. }
      exists (new1 ++ new2). split; [by rewrite <- app_assoc |]. split.
      * apply Forall_app. by split.
      * rewrite length_app. cbn [length]. nia.
Qed.
End calls.

(** X15: recording the calls of [ssdeep.compare] changes nothing of what
    the pass computes; no path is ever compared against itself, every
    call is between two keys of the table, and a table of [n] entries
    costs at most [n * (n - 1)] calls. *)
Theorem comparisons_are_quadratic compare threshold (tbl : DigestTable) :
  (cluster_pass_calls compare threshold tbl).1
  = cluster_run compare threshold tbl tbl (∅, [])
  ∧ Forall (λ call : string * string,
              call.1 ≠ call.2 ∧ call.1 ∈ keys tbl ∧ call.2 ∈ keys tbl)
           (cluster_pass_calls compare threshold tbl).2
  ∧ (length (cluster_pass_calls compare threshold tbl).2
     ≤ length tbl * (length tbl - 1))%nat.
Proof.
  unfold cluster_pass_calls, cluster_run.
  destruct (for_each_outer_body_calls compare threshold tbl tbl (∅, []) [])
    as (new & -> & Hall & Hlen); [done |].
  cbn [fst snd app]. split; [| done].
  by destruct (for_each (outer_body compare threshold tbl) (∅, []) tbl).
Qed.

(** ** What [main] prints *)




(** The separator is ["-" * 20]. *)
Example separator_length : String.length "--------------------" = 20%nat.
Proof. reflexivity. Qed.



(** Two files whose digests make the comparison fail: nothing is
    printed and the status is 1. *)
Example main_exits_with_1 :
  main (sample_fs ["a"; "b"]) bad_hs cmpF sample_args
  = ([LogStarting "d"; Scanned (Open "d/a"); Scanned (Open "d/b");
      LogCritical], 1).
Proof. by vm_compute. Qed.

Example main_exits_with_0 :
  main (sample_fs ["a"; "tiny"; "b"]) sample_hs cmpA sample_args
  = ([LogStarting "d"; Scanned (Open "d/a"); Scanned (LogSkipSmall "d/tiny");
      Scanned (Open "d/b"); Print "Cluster representative: d/a";
      Print "  - d/a"; Print "  - d/b"; Print "--------------------";
      LogComplete], 0).
Proof. by vm_compute. Qed.

(** ** Which representative claims a path *)

Section earliest.
Variable compare : hashval → hashval → cmp_result.
Variable threshold : Z.
Variable tbl : DigestTable.

Lemma cluster_run_app l1 l2 st :
  cluster_run_spec compare threshold tbl (l1 ++ l2) st
  = cluster_run_spec compare threshold tbl l2
      (cluster_run_spec compare threshold tbl l1 st).
Proof. unfold cluster_run_spec. apply foldl_app. Qed.

Lemma emitted_app l1 l2 clusters :
  emitted compare threshold tbl clusters (l1 ++ l2)
  = emitted compare threshold tbl clusters l1
    ++ emitted compare threshold tbl
         (cluster_run_spec compare threshold tbl l1 (clusters, [])).1 l2.
Proof.
  pose proof (cluster_run_emitted compare threshold tbl (l1 ++ l2) clusters [])
    as Hall.
  rewrite cluster_run_app in Hall.
  destruct (cluster_run_spec compare threshold tbl l1 (clusters, []))
    as [clusters1 yielded1] eqn:H1.
  rewrite cluster_run_emitted in Hall. cbn [app fst] in *. rewrite <- Hall.
  f_equal.
  pose proof (cluster_run_emitted compare threshold tbl l1 clusters []) as Hl1.
  by rewrite H1 in Hl1.
Qed.

Lemma registry_grows l1 l2 clusters q :
  q ∈ (cluster_run_spec compare threshold tbl l1 (clusters, [])).1 →
  q ∈ (cluster_run_spec compare threshold tbl (l1 ++ l2) (clusters, [])).1.
Proof.
  rewrite cluster_run_app.
  destruct (cluster_run_spec compare threshold tbl l1 (clusters, []))
    as [clusters1 yielded1].
  rewrite cluster_run_registry. cbn [fst]. intros Hq.
  apply elem_of_union. by left.
Qed.

(** The pair of a representative whose entry stands between [pre] and
    [post], when the keys are distinct. *)
Lemma emitted_at pre r hr xr post c :
  tbl = pre ++ (r, (hr, xr)) :: post →
  NoDup (keys tbl) →
  (r, c) ∈ cluster_pass_spec compare threshold tbl →
  c = r :: gathered compare threshold r hr
             (cluster_run_spec compare threshold tbl pre (∅, [])).1 tbl.
Proof.
  intros Htbl Hnd Hrc. rewrite cluster_pass_emitted in Hrc.
  rewrite Htbl in Hrc at 2. rewrite emitted_app in Hrc.
  rewrite Htbl in Hnd. unfold keys in Hnd. rewrite fmap_app in Hnd.
  cbn [fmap list_fmap fst] in Hnd.
  apply NoDup_app in Hnd as (_ & Hdis & Hnd).
  apply NoDup_cons in Hnd as [Hpost _].
  assert (∀ clusters items, (r, c) ∈ emitted compare threshold tbl clusters items
                            → r ∈ keys items) as Hrep.
  { intros clusters items H.
    apply (elem_of_sublist (emitted compare threshold tbl clusters items).*1);
      [| apply emitted_reps_sublist].
    apply list_elem_of_fmap. by exists (r, c). }
  apply elem_of_app in Hrc as [Hrc | Hrc].
  { exfalso. apply Hrep in Hrc. apply (Hdis r Hrc). left. }
  cbn [emitted] in Hrc.
  destruct (bool_decide (r ∈ _)).
  { exfalso. apply Hrep in Hrc. by apply Hpost. }
  cbv zeta in Hrc.
  destruct (gathered compare threshold r hr _ tbl) as [| m ms] eqn:Hg.
  { exfalso. apply Hrep in Hrc. by apply Hpost. }
  apply elem_of_cons in Hrc as [Heq | Hrc]; [by inversion Heq |].
  exfalso. apply Hrep in Hrc. by apply Hpost.
Qed.
End earliest.

(** In the specification's pass, what follows a representative is
    similar to no entry that stands before it in the table and was not
    claimed when the turn of the representative came. *)
Lemma member_not_similar_to_earlier compare threshold
    (pre post : DigestTable) r hr xr c m hm xm p h x :
  NoDup (keys (pre ++ (r, (hr, xr)) :: post)) →
  (r, c) ∈ cluster_pass_spec compare threshold (pre ++ (r, (hr, xr)) :: post) →
  m ∈ tail c →
  (m, (hm, xm)) ∈ pre ++ (r, (hr, xr)) :: post →
  (p, (h, x)) ∈ pre →
  m ≠ p →
  p ∉ (cluster_run_spec compare threshold (pre ++ (r, (hr, xr)) :: post)
         pre (∅, [])).1 →
  ∀ s, compare h hm = Similarity s → s < threshold.
Proof.
  set (tbl := pre ++ (r, (hr, xr)) :: post).
  intros Hnd Hrc Hm Hmt Hp Hne Hpreg s Hs.
  pose proof (emitted_at compare threshold tbl pre r hr xr post c
                eq_refl Hnd Hrc) as Hc.
  rewrite Hc in Hm. cbn [tail] in Hm.
  apply gathered_sound in Hm as (Hmr & Hmreg & _).
  assert (compared_all compare threshold tbl ([] ++ pre)
            (cluster_run_spec compare threshold tbl pre (∅, [])).1) as Hall.
  { apply cluster_run_compared_all. intros ? ? ? H. by apply elem_of_nil in H. }
  destruct (Hall p h x Hp Hpreg m hm xm Hmt Hne) as [H | H]; [done |].
  unfold similar in H. rewrite Hs in H.
  rewrite Z.geb_leb in H. apply Z.leb_gt in H. lia.
Qed.

(** X17: a path joins the first entry, in table order, that can claim
    it: if [m] follows representative [r] in a yielded pair, then no
    entry that stands before [r] in the table and was itself never
    claimed is similar to [m]. *)
Theorem member_joins_first_similar_entry compare threshold
    (pre post : DigestTable) r hr xr c m hm xm p h x :
  NoDup (keys (pre ++ (r, (hr, xr)) :: post)) →
  (r, c) ∈ cluster_pass compare threshold (pre ++ (r, (hr, xr)) :: post) →
  m ∈ tail c →
  (m, (hm, xm)) ∈ pre ++ (r, (hr, xr)) :: post →
  (p, (h, x)) ∈ pre →
  p ∉ members_of
        (cluster_pass compare threshold (pre ++ (r, (hr, xr)) :: post)) →
  ∀ s, compare h hm = Similarity s → s < threshold.
Proof.
  set (tbl := pre ++ (r, (hr, xr)) :: post).
  intros Hnd Hrc Hm Hmt Hp Hpm.
  assert (m ∈ members_of (cluster_pass compare threshold tbl)) as Hmm.
  { apply elem_of_members_of. by exists (r, c). }
  assert (m ≠ p) as Hne by (intros ->; done).
  apply (member_not_similar_to_earlier compare threshold pre post
           r hr xr c m hm xm p h x); try done.
  { by apply cluster_pass_elem. }
  fold tbl. rewrite cluster_run_registry. intros Hin.
  apply elem_of_union in Hin as [Hin | Hin];
    [by apply not_elem_of_empty in Hin |].
  apply elem_of_list_to_set in Hin. apply Hpm.
  assert (emitted compare threshold tbl ∅ pre
          `prefix_of` cluster_pass compare threshold tbl) as [k Hk].
  { destruct (prefix_weak_total
                (cluster_pass compare threshold tbl)
                (emitted compare threshold tbl ∅ pre)
                (cluster_pass_spec compare threshold tbl)) as [Hpre | Hpre];
      [apply cluster_pass_prefix | | | done].
    - rewrite cluster_pass_emitted. unfold tbl at 3. rewrite emitted_app.
      by apply prefix_app_r.
    - exfalso. destruct Hpre as [k Hk].
      assert ((r, c) ∈ emitted compare threshold tbl ∅ pre) as Hrpre.
      { rewrite Hk. apply elem_of_app. by left. }
      assert (r ∈ keys pre) as Hrk.
      { apply (elem_of_sublist (emitted compare threshold tbl ∅ pre).*1);
          [| apply emitted_reps_sublist].
        apply list_elem_of_fmap. by exists (r, c). }
      unfold tbl, keys in Hnd. rewrite fmap_app in Hnd.
      apply NoDup_app in Hnd as (_ & Hdis & _). apply (Hdis r Hrk).
      cbn. left. }
  rewrite Hk, members_of_app. apply elem_of_app. by left.
Qed.

Lemma member_joins_first_similar_entry_witness :
  cluster_pass cmpC 70 tblC = [("B", ["B"; "C"])]
  ∧ cmpC (Some "hA") (Some "hC") = Similarity 10 ∧ 10 < 70.
Proof.
  split; [by vm_compute |]. split; [by vm_compute |].
  refine (member_joins_first_similar_entry cmpC 70
            [("A", (Some "hA", Some "xA"))]
            [("C", (Some "hC", Some "xC"))]
            "B" (Some "hB") (Some "xB") ["B"; "C"]
            "C" (Some "hC") (Some "xC") "A" (Some "hA") (Some "xA")
            _ _ _ _ _ _ 10 _).
  - apply (bool_decide_unpack _). by vm_compute.
  - vm_compute. left.
  - left.
  - right. right. left.
  - left.
  - apply (bool_decide_unpack _). by vm_compute.
  - by vm_compute.
Defined.
